(** * Local agent (apps/sim/lib/copilot/local-agent.ts)

    A shallow embedding of the tool-calling agent of [local-agent.ts]:
    the schema normalizer [cleanJsonSchema], the provider adapter
    [convertToolsToAnthropic] with the tool cap of [createAnthropicStream],
    the dispatcher [executeToolCall] and the tool execution loop of
    [createAnthropicStream], followed by the properties of the
    specification that were checked against them. *)

From Stdlib Require Import List String Ascii ZArith Bool Arith Lia DecimalString.
From stdpp Require Import base list.
Import ListNotations.
Local Open Scope string_scope.
Local Open Scope list_scope.

(** ** JavaScript values

    Schemas and tool inputs are the JSON values the request and the
    provider carry.  An object is the list of its own enumerable
    properties in [Object.keys] order (a JavaScript object has each key at
    most once); numbers are abstracted to integers, of which only [0] is
    falsy. *)

#[local] Set Warnings "-register-all".

Inductive Json : Type :=
| JNull
| JBool (b : bool)
| JNum (n : Z)
| JStr (s : string)
| JArr (items : list Json)
| JObj (fields : list (string * Json)).

Definition JsObject : Type := list (string * Json).

(** [!!v] *)
Definition truthy (v : Json) : bool :=
  match v with
  | JNull => false
  | JBool b => b
  | JNum n => negb (Z.eqb n 0)
  | JStr s => negb (String.eqb s "")
  | JArr _ | JObj _ => true
  end.

(** [typeof v === 'object'] (which [null] and arrays satisfy) *)
Definition typeof_object (v : Json) : bool :=
  match v with
  | JNull | JArr _ | JObj _ => true
  | _ => false
  end.

(** [Array.isArray(v)] *)
Definition isArray (v : Json) : bool :=
  match v with JArr _ => true | _ => false end.

Definition is_null (v : Json) : bool :=
  match v with JNull => true | _ => false end.

(** [v === s] for a string literal [s] *)
Definition is_string (s : string) (v : Json) : bool :=
  match v with JStr s' => String.eqb s' s | _ => false end.

(** [list.includes(s)] *)
Definition includes (s : string) (l : list string) : bool :=
  existsb (String.eqb s) l.

(** *** Objects *)

(** [o[k]], [None] standing for [undefined] *)
Fixpoint obj_get (k : string) (o : JsObject) : option Json :=
  match o with
  | [] => None
  | (k', v) :: rest => if String.eqb k' k then Some v else obj_get k rest
  end.

(** [k in o] *)
Definition obj_has (k : string) (o : JsObject) : bool :=
  match obj_get k o with Some _ => true | None => false end.

(** [o[k] = v]: an existing key keeps its place, a new one goes last *)
Fixpoint obj_set (k : string) (v : Json) (o : JsObject) : JsObject :=
  match o with
  | [] => [(k, v)]
  | (k', v') :: rest =>
      if String.eqb k' k then (k, v) :: rest else (k', v') :: obj_set k v rest
  end.

(** the keys [k] of [o] with [keep k] stay, the others are deleted *)
Definition obj_filter_keys (keep : string -> bool) (o : JsObject) : JsObject :=
  List.filter (fun kv => keep (fst kv)) o.

(** [delete o[k]] *)
Definition obj_delete (k : string) (o : JsObject) : JsObject :=
  obj_filter_keys (fun k' => negb (String.eqb k' k)) o.

(** The value of a string of decimal digits. *)
Fixpoint decimal_value (acc : N) (s : string) : option N :=
  match s with
  | EmptyString => Some acc
  | String c rest =>
      let d := N_of_ascii c in
      if ((48 <=? d) && (d <=? 57))%N
      then decimal_value (10 * acc + (d - 48))%N rest
      else None
  end.

(** The array index a key stands for, if it does: the decimal, without a
    leading zero, of an integer below [2^32 - 1]. *)
Definition array_index (k : string) : option N :=
  match k with
  | EmptyString => None
  | String c rest =>
      if Ascii.eqb c "0"%char && negb (String.eqb rest "") then None
      else match decimal_value 0 k with
           | Some n => if (n <? 4294967295)%N then Some n else None
           | None => None
           end
  end.

(** Whether [Object.keys] lists the new key [k] before the key [k']: the
    array indices come first, in ascending order, and the other keys follow
    in the order of their creation. *)
Definition listed_before (k k' : string) : bool :=
  match array_index k, array_index k' with
  | Some i, Some j => (i <? j)%N
  | Some _, None => true
  | None, _ => false
  end.

(** [o[k] = v] for a key that may be an array index: an existing key
    keeps its place, a new one goes where [Object.keys] lists it *)
Fixpoint obj_define (k : string) (v : Json) (o : JsObject) : JsObject :=
  match o with
  | [] => [(k, v)]
  | (k', v') :: rest =>
      if String.eqb k' k then (k, v) :: rest
      else if listed_before k k' && negb (obj_has k rest)
      then (k, v) :: (k', v') :: rest
      else (k', v') :: obj_define k v rest
  end.

(** [{ ...a, ...b }]: every key of [b], in order, is read from [b] and
    defined on the copy of [a] *)
Definition obj_assign (a b : JsObject) : JsObject :=
  fold_left
    (fun acc kv =>
       match obj_get (fst kv) b with
       | Some v => obj_define (fst kv) v acc
       | None => acc
       end) b a.

(** The key of index [i] of an array, in decimal. *)
Definition index_key (i : nat) : string :=
  NilZero.string_of_uint (Nat.to_uint i).

Fixpoint array_entries (i : nat) (l : list Json) : JsObject :=
  match l with
  | [] => []
  | x :: rest => (index_key i, x) :: array_entries (S i) rest
  end.

(** [Object.entries(v)] for an object or an array, which is also what
    [{ ...v }] copies. *)
Definition own_entries (v : Json) : JsObject :=
  match v with
  | JObj fields => fields
  | JArr items => array_entries 0 items
  | _ => []
  end.

(** Nesting depth of a value. *)
Fixpoint depth (v : Json) : nat :=
  match v with
  | JArr items => S (list_max (List.map depth items))
  | JObj fields => S (list_max (List.map (fun kv => depth (snd kv)) fields))
  | _ => 0
  end.

(** ** Results of code that may throw *)

Inductive result (A : Type) : Type :=
| Ok (a : A)          (* returns [a] *)
| TypeError           (* throws a TypeError *)
| OutOfFuel.          (* the recursion bound of the model was reached *)
Arguments Ok {A} a.
Arguments TypeError {A}.
Arguments OutOfFuel {A}.

Definition bind {A B} (r : result A) (f : A -> result B) : result B :=
  match r with
  | Ok a => f a
  | TypeError => TypeError
  | OutOfFuel => OutOfFuel
  end.

Notation "'let*' x ':=' r 'in' k" := (bind r (fun x => k))
  (at level 10, x name, r at level 100, k at level 200).

(** [l.map(f)] where [f] may throw *)
Fixpoint mapM {A B} (f : A -> result B) (l : list A) : result (list B) :=
  match l with
  | [] => Ok []
  | x :: rest => let* y := f x in let* ys := mapM f rest in Ok (y :: ys)
  end.

(** ** Schema normalizer: [cleanJsonSchema] *)

Definition allowedTopLevelProps : list string :=
  [ "type"; "properties"; "required"; "items"; "description"; "enum"; "const";
    "default"; "minimum"; "maximum"; "minLength"; "maxLength"; "pattern";
    "format"; "minItems"; "maxItems"; "uniqueItems"; "additionalProperties";
    "anyOf"; "oneOf"; "allOf"; "not"; "$ref"; "title" ].

Definition validTypes : list string :=
  [ "string"; "number"; "integer"; "boolean"; "object"; "array"; "null" ].

Definition backslash : ascii := ascii_of_nat 92.
Definition double_quote : ascii := ascii_of_nat 34.

(** the characters of the class of the repair expression: backslash,
    slash, b, f, n, r, t and the two quotes *)
Definition escape_class (c : ascii) : bool :=
  existsb (Ascii.eqb c)
    [ backslash; "/"%char; "b"%char; "f"%char; "n"%char; "r"%char; "t"%char;
      double_quote; "'"%char ].

(** [pattern.replace(..., ...)] with the repair expression: every backslash
    that is not followed by a character of the class is doubled. *)
Fixpoint escape_backslashes (s : string) : string :=
  match s with
  | EmptyString => EmptyString
  | String c rest =>
      if Ascii.eqb c backslash then
        match rest with
        | String d _ =>
            if escape_class d then String c (escape_backslashes rest)
            else String backslash (String backslash (escape_backslashes rest))
        | EmptyString => String backslash (String backslash EmptyString)
        end
      else String c (escape_backslashes rest)
  end.

(** The final pass deletes a key whose value is [null] or [''], and, except
    for [properties] and [default], one whose value is an empty object or
    (except for [enum]) an empty array. *)
Definition removable (key : string) (value : Json) : bool :=
  is_null value || is_string "" value
  || (negb (String.eqb key "properties") && negb (String.eqb key "default")
      && (match value with
          | JObj [] => true
          | JArr [] => negb (String.eqb key "enum")
          | _ => false
          end)).

(** In that pass [Object.keys(value)] is evaluated on every value with
    [typeof value === 'object'] that is not an array, [null] included, for
    which it throws. *)
Definition keys_of_null (key : string) (value : Json) : bool :=
  negb (String.eqb key "properties") && negb (String.eqb key "default")
  && is_null value.

Section Normalizer.

(** [new RegExp(p)] does not throw. *)
Variable regexp_valid : string -> bool.

Section Body.

(** the recursive calls *)
Variable rec : Json -> result Json.

(** [cleaned.type] made a valid type name *)
Definition normalize_type (cleaned : JsObject) : JsObject :=
  match obj_get "type" cleaned with
  | Some t =>
      match t with
      | JStr s =>
          if includes s validTypes then cleaned
          else obj_set "type" (JStr "string") cleaned
      | _ =>
          (* else if (cleaned.type === '') *)
          if is_string "" t then obj_set "type" (JStr "object") cleaned
          else cleaned
      end
  | None => obj_set "type" (JStr "object") cleaned
  end.

Definition drop_nullable (cleaned : JsObject) : JsObject :=
  if obj_has "nullable" cleaned then obj_delete "nullable" cleaned
  else cleaned.

Definition clean_entry (kv : string * Json) : result (string * Json) :=
  let* v := rec (snd kv) in Ok (fst kv, v).

Definition clean_properties (cleaned : JsObject) : result JsObject :=
  match obj_get "properties" cleaned with
  | Some p =>
      if truthy p && typeof_object p then
        let* entries := mapM clean_entry (own_entries p) in
        Ok (obj_set "properties" (JObj entries) cleaned)
      else Ok cleaned
  | None => Ok cleaned
  end.

Definition drop_items_unless_array (cleaned : JsObject) : JsObject :=
  match obj_get "items" cleaned with
  | Some i =>
      if truthy i
         && negb (match obj_get "type" cleaned with
                  | Some t => is_string "array" t
                  | None => false
                  end)
      then obj_delete "items" cleaned
      else cleaned
  | None => cleaned
  end.

Definition clean_items (cleaned : JsObject) : result JsObject :=
  match obj_get "items" cleaned with
  | Some i =>
      if truthy i then
        match i with
        | JArr l => let* l' := mapM rec l in Ok (obj_set "items" (JArr l') cleaned)
        | _ => let* i' := rec i in Ok (obj_set "items" i' cleaned)
        end
      else Ok cleaned
  | None => Ok cleaned
  end.

(** [typeof item === 'string' && item.length > 0] *)
Definition required_entry (item : Json) : bool :=
  match item with JStr s => negb (String.eqb s "") | _ => false end.

Definition clean_required (cleaned : JsObject) : JsObject :=
  match obj_get "required" cleaned with
  | Some r =>
      if truthy r then
        match r with
        | JArr l =>
            let kept := List.filter required_entry l in
            let cleaned := obj_set "required" (JArr kept) cleaned in
            match kept with
            | [] => obj_delete "required" cleaned
            | _ => cleaned
            end
        | _ => obj_delete "required" cleaned
        end
      else cleaned
  | None => cleaned
  end.

(** one round of the loop over [anyOf], [oneOf] and [allOf] *)
Definition clean_combinator (key : string) (cleaned : JsObject)
  : result JsObject :=
  match obj_get key cleaned with
  | Some (JArr l) => let* l' := mapM rec l in Ok (obj_set key (JArr l') cleaned)
  | _ => Ok cleaned
  end.

Definition clean_not (cleaned : JsObject) : result JsObject :=
  match obj_get "not" cleaned with
  | Some n =>
      if truthy n then let* n' := rec n in Ok (obj_set "not" n' cleaned)
      else Ok cleaned
  | None => Ok cleaned
  end.

Definition fix_pattern (cleaned : JsObject) : JsObject :=
  match obj_get "pattern" cleaned with
  | Some (JStr p) =>
      if negb (String.eqb p "") then
        if regexp_valid p then cleaned
        else
          let fixedPattern := escape_backslashes p in
          if regexp_valid fixedPattern
          then obj_set "pattern" (JStr fixedPattern) cleaned
          else obj_delete "pattern" cleaned
      else cleaned
  | _ => cleaned
  end.

Definition final_pass (cleaned : JsObject) : result JsObject :=
  if existsb (fun kv => match obj_get (fst kv) cleaned with
                        | Some value => keys_of_null (fst kv) value
                        | None => false
                        end) cleaned
  then TypeError
  else Ok (obj_filter_keys
             (fun key => match obj_get key cleaned with
                         | Some value => negb (removable key value)
                         | None => true
                         end) cleaned).

(** The body of [cleanJsonSchema], its recursive calls being [rec]. *)
Definition cleanBody (schema : Json) : result Json :=
  if negb (truthy schema) || negb (typeof_object schema) then Ok schema
  else
    let cleaned := own_entries schema in
    let cleaned := obj_delete "$schema" cleaned in
    let cleaned :=
      obj_filter_keys (fun key => includes key allowedTopLevelProps) cleaned in
    let cleaned := normalize_type cleaned in
    let cleaned := drop_nullable cleaned in
    let* cleaned := clean_properties cleaned in
    let cleaned := drop_items_unless_array cleaned in
    let* cleaned := clean_items cleaned in
    let cleaned := clean_required cleaned in
    let* cleaned := clean_combinator "anyOf" cleaned in
    let* cleaned := clean_combinator "oneOf" cleaned in
    let* cleaned := clean_combinator "allOf" cleaned in
    let* cleaned := clean_not cleaned in
    let cleaned := fix_pattern cleaned in
    let* cleaned := final_pass cleaned in
    Ok (JObj cleaned).

End Body.

(** [cleanJsonSchema] with its recursion bounded by [fuel]. *)
Fixpoint cleanJsonSchema_fuel (fuel : nat) (schema : Json) : result Json :=
  match fuel with
  | O => OutOfFuel
  | S fuel' => cleanBody (cleanJsonSchema_fuel fuel') schema
  end.

(** [cleanJsonSchema]: the recursion descends into the schema, so its
    depth bounds it ([cleanJsonSchema_unfold] below). *)
Definition cleanJsonSchema (schema : Json) : result Json :=
  cleanJsonSchema_fuel (S (depth schema)) schema.

End Normalizer.

(** ** Provider adapter: [convertToolsToAnthropic] and the tool cap *)

(** A tool of the request: [name], [description] and [input_schema], the
    last two possibly [undefined]. *)
Record Tool : Type := {
  tool_name : string;
  tool_description : option string;
  tool_input_schema : option Json;
}.

(** A tool in the provider's format. *)
Record AnthropicTool : Type := {
  name : string;
  description : string;
  input_schema : Json;
}.

(** [s.includes(sub)] *)
Definition str_includes (sub s : string) : bool :=
  match String.index 0 sub s with Some _ => true | None => false end.

Section Adapter.

Variable regexp_valid : string -> bool.

(** The function mapped over the tools by [convertToolsToAnthropic].  The
    module is in strict mode: assigning [type] on a schema that is not an
    object throws. *)
Definition convertTool (tool : Tool) : result AnthropicTool :=
  let inputSchema :=
    match tool_input_schema tool with
    | Some s =>
        if negb (truthy s)
           || (typeof_object s
               && match own_entries s with [] => true | _ => false end)
        then JObj [("type", JStr "object"); ("properties", JObj [])]
        else s
    | None => JObj [("type", JStr "object"); ("properties", JObj [])]
    end in
  let* cleanedSchema := cleanJsonSchema regexp_valid inputSchema in
  let* cleanedSchema :=
    match cleanedSchema with
    | JObj o =>
        match obj_get "$schema" o with
        | Some (JStr s) =>
            if negb (String.eqb s "") && str_includes "draft-07" s
            then Ok (JObj (obj_delete "$schema" o)) else Ok cleanedSchema
        | Some (JArr l) =>
            if existsb (is_string "draft-07") l
            then Ok (JObj (obj_delete "$schema" o)) else Ok cleanedSchema
        | Some v => if truthy v then TypeError else Ok cleanedSchema
        | None => Ok cleanedSchema
        end
    | _ => Ok cleanedSchema
    end in
  let* cleanedSchema :=
    match cleanedSchema with
    | JObj o =>
        match obj_get "type" o with
        | Some t =>
            if truthy t then Ok cleanedSchema
            else Ok (JObj (obj_set "type" (JStr "object") o))
        | None => Ok (JObj (obj_set "type" (JStr "object") o))
        end
    | _ => TypeError
    end in
  Ok {| name := tool_name tool;
        description :=
          match tool_description tool with
          | Some d => if String.eqb d "" then tool_name tool else d
          | None => tool_name tool
          end;
        input_schema := cleanedSchema |}.

(** [uniqueTools.has(n)], the map being the list of its values in
    insertion order *)
Definition has_name (n : string) (uniqueTools : list AnthropicTool) : bool :=
  existsb (fun t => String.eqb (name t) n) uniqueTools.

(** the loop filling [uniqueTools] *)
Definition deduplicate (convertedTools : list AnthropicTool)
  : list AnthropicTool :=
  fold_left
    (fun uniqueTools tool =>
       if has_name (name tool) uniqueTools then uniqueTools
       else uniqueTools ++ [tool])
    convertedTools [].

Definition convertToolsToAnthropic (tools : list Tool)
  : result (list AnthropicTool) :=
  let* convertedTools := mapM convertTool tools in
  Ok (deduplicate convertedTools).

End Adapter.

Definition MAX_TOOLS : nat := 100.

(** [toolsToConvert] of [createAnthropicStream], from [request.baseTools]
    and [request.tools]. *)
Definition toolsToConvert (baseTools tools : option (list Tool)) : list Tool :=
  let baseTools := default [] baseTools in
  let tools := default [] tools in
  let allTools := baseTools ++ tools in
  if (MAX_TOOLS <? length allTools)%nat then
    let baseToolsCount := length baseTools in
    let remainingSlots := (Z.of_nat MAX_TOOLS - Z.of_nat baseToolsCount)%Z in
    if (0 <? remainingSlots)%Z
    then baseTools ++ firstn (Z.to_nat remainingSlots) tools
    else firstn MAX_TOOLS baseTools
  else allTools.

(** ** The conversation and the request *)

(** The [input] objects of the tool calls live in the heap: a content block
    and the dispatcher hold references to the same object. *)
Definition Loc : Type := nat.
Definition Heap : Type := list JsObject.

(** A content block as the provider sends and receives it. *)
Inductive WireBlock : Type :=
| WText (text : string)
| WThinking (thinking : string)
| WToolUse (id toolName : string) (input : JsObject).

(** A content block of a message in memory. *)
Inductive ContentBlock : Type :=
| TextBlock (text : string)
| ThinkingBlock (thinking : string)
| ToolUseBlock (id toolName : string) (input : Loc).

(** The [content] of a tool result: what [JSON.stringify(result, null, 2)]
    gave, or [`Error: ${error}`], both kept symbolic. *)
Inductive ToolResultContent : Type :=
| Stringified (text : option Json)
| ErrorText (error : option string).

Record ToolResultBlock : Type := {
  tool_use_id : string;
  tool_result_content : ToolResultContent;
}.

Inductive Role : Type := user | assistant.

Inductive MessageContent (B : Type) : Type :=
| Text (text : string)
| Blocks (blocks : list B)
| ToolResults (results : list ToolResultBlock).
Arguments Text {B} text.
Arguments Blocks {B} blocks.
Arguments ToolResults {B} results.

(** A turn of the conversation, with blocks [B]: one of the caller's
    history, kept as it came, or one the loop appended. *)
Inductive Turn (B : Type) : Type :=
| FromHistory (turn : Json)
| Appended (role : Role) (content : MessageContent B).
Arguments FromHistory {B} turn.
Arguments Appended {B} role content.

(** A message of [conversationMessages], and what the provider is sent for
    it. *)
Definition Message : Type := Turn ContentBlock.
Definition WireMessage : Type := Turn WireBlock.

Definition resolve_block (heap : Heap) (b : ContentBlock) : WireBlock :=
  match b with
  | TextBlock t => WText t
  | ThinkingBlock t => WThinking t
  | ToolUseBlock id n l => WToolUse id n (default [] (heap !! l))
  end.

(** The turn as it reads with the objects of the heap. *)
Definition resolve (heap : Heap) (m : Message) : WireMessage :=
  match m with
  | FromHistory turn => FromHistory turn
  | Appended role (Text t) => Appended role (Text t)
  | Appended role (Blocks bs) =>
      Appended role (Blocks (List.map (resolve_block heap) bs))
  | Appended role (ToolResults rs) => Appended role (ToolResults rs)
  end.

Record OAuthCredential : Type := {
  accessToken : string;
  accountId : string;
  credentialName : string;
}.

(** [oauth] lists its providers in [Object.keys] order. *)
Record Credentials : Type := {
  oauth : option (list (string * OAuthCredential));
  apiKeys : list string;
}.

Record LocalAgentRequest : Type := {
  message : string;
  workflowId : string;
  userId : string;
  context : option (list (string * string));
  tools : option (list Tool);
  baseTools : option (list Tool);
  credentials : option Credentials;
  conversationHistory : option (list Json);
  userName : option string;
  systemPromptCache : option string;
}.

(** ** Tool dispatcher: [executeToolCall] *)

(** The fields of [ExecutionContext] that depend on the request; the others
    are fresh empty collections and time stamps. *)
Record ExecutionContext : Type := {
  ctx_userId : string;
  ctx_workflowId : string;
}.

(** What a tool implementation does: it returns a value or throws, an
    [Error] with its message or something else. *)
Inductive Outcome (A : Type) : Type :=
| Returned (value : A)
| Threw (errorMessage : option string).
Arguments Returned {A} value.
Arguments Threw {A} errorMessage.

(** A value that a tool hands back, as [JSON.stringify] treats it: JSON
    data; a function or a symbol, which it leaves out; or a value on which
    it throws (a BigInt, a cyclic structure, a [toJSON] that throws), with
    the message of the error when it is an [Error]. *)
Inductive JsValue : Type :=
| JsonValue (v : Json)
| NotJson
| Unserializable (errorMessage : option string).

(** [JSON.stringify(value)], the text being kept as the data it denotes;
    [None] is [undefined]. *)
Definition stringify (value : option JsValue) : Outcome (option Json) :=
  match value with
  | None => Returned None
  | Some (JsonValue v) => Returned (Some v)
  | Some NotJson => Returned None
  | Some (Unserializable e) => Threw e
  end.

Record ToolResponse : Type := {
  response_success : bool;
  response_output : option JsValue;
  response_error : option string;
}.

(** What the evaluated code of [function_execute] finds in the scope of
    [executeToolCall]: the objects [toolInput] and [request]. *)
Record Scope : Type := {
  scope_toolInput : JsObject;
  scope_request : LocalAgentRequest;
}.

(** The implementations behind the dispatcher.  The server tools and
    [executeTool] are functions of their arguments: they are taken not to
    write into the objects they are given.  The code of [function_execute]
    is run by a direct [eval] inside [executeToolCall]: it hands back any
    value or throws, and it may write into [toolInput] and [request], which
    are in its scope; the two objects as it leaves them are part of its
    outcome.  What such code can reach beyond them (the bindings of the
    module, the globals, the array behind [request.conversationHistory])
    is not followed, and what it writes is JSON data. *)
Record ToolImplementations : Type := {
  (** [await eval(wrappedCode)], the code being [toolInput.code] *)
  evalCode : option Json -> Scope -> Outcome (option JsValue) * Scope;
  editWorkflowServerTool : JsObject -> string -> Outcome (option JsValue);
  getWorkflowConsoleServerTool : JsObject -> Outcome (option JsValue);
  getBlocksMetadataServerTool : JsObject -> Outcome (option JsValue);
  getBlocksAndToolsServerTool : JsObject -> Outcome (option JsValue);
  executeTool : string -> JsObject -> ExecutionContext -> Outcome ToolResponse;
}.

(** The call [executeToolCall] makes: which implementation, on which
    arguments. *)
Inductive ToolInvocation : Type :=
| InvFunctionExecute (code : option Json)
| InvEditWorkflow (args : JsObject) (contextUserId : string)
| InvGetWorkflowConsole (args : JsObject)
| InvGetBlocksMetadata (args : JsObject)
| InvGetBlocksAndTools (args : JsObject)
| InvExecuteTool (toolName : string) (toolInput : JsObject)
    (executionContext : ExecutionContext).

(** The input the tool receives. *)
Definition invocation_input (inv : ToolInvocation) : JsObject :=
  match inv with
  | InvFunctionExecute code =>
      match code with Some c => [("code", c)] | None => [] end
  | InvEditWorkflow args _ => args
  | InvGetWorkflowConsole args => args
  | InvGetBlocksMetadata args => args
  | InvGetBlocksAndTools args => args
  | InvExecuteTool _ toolInput _ => toolInput
  end.

Record ExecutionResult : Type := {
  success : bool;
  result_value : option JsValue;
  result_error : option string;
}.

Definition succeeded (r : option JsValue) : ExecutionResult :=
  {| success := true; result_value := r; result_error := None |}.

(** [error instanceof Error ? error.message : fallback] *)
Definition failed (errorMessage : option string) (fallback : string)
  : ExecutionResult :=
  {| success := false; result_value := None;
     result_error := Some (default fallback errorMessage) |}.

Definition privileged_tools : list string :=
  [ "function_execute"; "edit_workflow"; "get_workflow_console";
    "get_blocks_metadata"; "get_blocks_and_tools" ].

(** The first part of [executeToolCall], up to the call of the
    implementation: the call it prepares for the tool [toolName] on the
    object [toolInput], which is the object at [loc] of the heap, and the
    heap after it. *)
Definition prepareToolCall (toolName : string) (loc : Loc)
    (toolInput : JsObject) (request : LocalAgentRequest) (heap : Heap)
  : ToolInvocation * Heap :=
  if String.eqb toolName "function_execute" then
    (InvFunctionExecute (obj_get "code" toolInput), heap)
  else if String.eqb toolName "edit_workflow" then
    let args :=
      obj_assign [("workflowId", JStr (workflowId request))] toolInput in
    (InvEditWorkflow args (userId request), heap)
  else if String.eqb toolName "get_workflow_console" then
    let args :=
      obj_assign [("workflowId", JStr (workflowId request))] toolInput in
    (InvGetWorkflowConsole args, heap)
  else if String.eqb toolName "get_blocks_metadata" then
    (InvGetBlocksMetadata toolInput, heap)
  else if String.eqb toolName "get_blocks_and_tools" then
    (InvGetBlocksAndTools [], heap)
  else
    let executionContext :=
      {| ctx_userId := userId request; ctx_workflowId := workflowId request |} in
    (* toolInput.credential = oauthProviders[0] *)
    let toolInput :=
      match credentials request with
      | Some c =>
          match oauth c with
          | Some o =>
              match List.map fst o with
              | first :: _ => obj_set "credential" (JStr first) toolInput
              | [] => toolInput
              end
          | None => toolInput
          end
      | None => toolInput
      end in
    (* toolInput._context = { workflowId, userId } *)
    let toolInput :=
      obj_set "_context"
        (JObj [("workflowId", JStr (workflowId request));
               ("userId", JStr (userId request))]) toolInput in
    (InvExecuteTool toolName toolInput executionContext,
     <[loc := toolInput]> heap).

Section Dispatcher.

Variable impl : ToolImplementations.

(** The second part: the call, in the scope [scope], what is made of its
    outcome, and the scope after it. *)
Definition invoke (inv : ToolInvocation) (scope : Scope)
  : ExecutionResult * Scope :=
  match inv with
  | InvFunctionExecute code =>
      let '(outcome, scope) := evalCode impl code scope in
      (match outcome with
       | Returned r => succeeded r
       | Threw e => failed e "Code execution failed"
       end, scope)
  | InvEditWorkflow args uid =>
      (match editWorkflowServerTool impl args uid with
       | Returned r => succeeded r
       | Threw e => failed e "Workflow edit failed"
       end, scope)
  | InvGetWorkflowConsole args =>
      (match getWorkflowConsoleServerTool impl args with
       | Returned r => succeeded r
       | Threw e => failed e "Failed to get workflow data"
       end, scope)
  | InvGetBlocksMetadata args =>
      (match getBlocksMetadataServerTool impl args with
       | Returned r => succeeded r
       | Threw e => failed e "Failed to get blocks metadata"
       end, scope)
  | InvGetBlocksAndTools args =>
      (match getBlocksAndToolsServerTool impl args with
       | Returned r => succeeded r
       | Threw e => failed e "Failed to get blocks and tools"
       end, scope)
  | InvExecuteTool toolName toolInput executionContext =>
      (match executeTool impl toolName toolInput executionContext with
       | Returned toolResponse =>
           {| success := response_success toolResponse;
              result_value :=
                if response_success toolResponse
                then response_output toolResponse else None;
              result_error :=
                if response_success toolResponse
                then None else response_error toolResponse |}
       | Threw e => failed e "Unknown execution error"
       end, scope)
  end.

(** [executeToolCall(toolName, toolInput, request)], [toolInput] being
    the object at [loc]: its result, and the heap and the request after
    it.  The loop passes the objects it has put in the heap; on a
    reference outside the heap the model gives the failure of the outer
    [catch]. *)
Definition executeToolCall (toolName : string) (loc : Loc)
    (request : LocalAgentRequest) (heap : Heap)
  : ExecutionResult * (Heap * LocalAgentRequest) :=
  match heap !! loc with
  | Some toolInput =>
      let '(inv, heap) := prepareToolCall toolName loc toolInput request heap in
      let '(executionResult, scope) :=
        invoke inv {| scope_toolInput := default toolInput (heap !! loc);
                      scope_request := request |} in
      (executionResult,
       (<[loc := scope_toolInput scope]> heap, scope_request scope))
  | None => (failed None "Unknown execution error", (heap, request))
  end.

End Dispatcher.

(** ** Conversation loop: [createAnthropicStream] *)

(** What [controller.enqueue] writes, before its serialization. *)
Inductive StreamEvent : Type :=
| EvStart (model provider systemPrompt : string)
| EvReasoningStart
| EvReasoning (text : string)
| EvReasoningEnd (duration : Z)
| EvContent (text : string)
| EvToolCall (id toolName : string) (arguments : JsObject) (partial : bool)
| EvToolResult (toolCallId toolName : string) (result : ExecutionResult)
| EvError (errorMessage displayMessage : string)
| EvDone (summary : option (option string * Z * Z)).

(** What is done to the stream controller. *)
Inductive StreamAction : Type :=
| Enqueue (event : StreamEvent)
| Close.

(** The callbacks of one provider stream, in the order they are made: a
    ['text'] event, with whether the last content block tracked is a
    thinking block and with the time, or an ['error'] event. *)
Inductive StreamCallback : Type :=
| OnText (lastBlockThinking : bool) (text : string) (now : Z)
| OnError (errorMessage : option string).

Record FinalMessage : Type := {
  content : list WireBlock;
  stop_reason : option string;
  input_tokens : Z;
  output_tokens : Z;
}.

(** One turn of the provider: its callbacks, then [stream.finalMessage()]
    resolves or rejects. *)
Record ProviderTurn : Type := {
  callbacks : list StreamCallback;
  finalMessage : Outcome FinalMessage;
}.

(** The state of [start].  When the caller gave a history, its array is
    [conversationMessages] itself, and the code run by [function_execute]
    can reach the conversation through [request.conversationHistory]: what
    it could do to it there is not followed, and [historyShared] records
    that case, so that the properties of the conversation and of its
    blocks are stated for the other one.  The properties of the stream and
    of the rounds counted do not depend on the conversation. *)
Record LoopState : Type := {
  conversationMessages : list Message;
  historyShared : bool;
  heap : Heap;
  currentRequest : LocalAgentRequest;   (* the object [request] as it is now *)
  continueLoop : bool;
  iterationCount : nat;
  trace : list StreamAction;       (* the stream so far, oldest first *)
}.

Definition enqueue (events : list StreamEvent) (st : LoopState) : LoopState :=
  {| conversationMessages := conversationMessages st;
     historyShared := historyShared st;
     heap := heap st;
     currentRequest := currentRequest st;
     continueLoop := continueLoop st;
     iterationCount := iterationCount st;
     trace := trace st ++ List.map Enqueue events |}.

Definition push (m : Message) (st : LoopState) : LoopState :=
  {| conversationMessages := conversationMessages st ++ [m];
     historyShared := historyShared st;
     heap := heap st;
     currentRequest := currentRequest st;
     continueLoop := continueLoop st;
     iterationCount := iterationCount st;
     trace := trace st |}.

Definition set_heap (h : Heap) (st : LoopState) : LoopState :=
  {| conversationMessages := conversationMessages st;
     historyShared := historyShared st;
     heap := h;
     currentRequest := currentRequest st;
     continueLoop := continueLoop st;
     iterationCount := iterationCount st;
     trace := trace st |}.

Definition set_request (r : LocalAgentRequest) (st : LoopState) : LoopState :=
  {| conversationMessages := conversationMessages st;
     historyShared := historyShared st;
     heap := heap st;
     currentRequest := r;
     continueLoop := continueLoop st;
     iterationCount := iterationCount st;
     trace := trace st |}.

Definition stop_loop (st : LoopState) : LoopState :=
  {| conversationMessages := conversationMessages st;
     historyShared := historyShared st;
     heap := heap st;
     currentRequest := currentRequest st;
     continueLoop := false;
     iterationCount := iterationCount st;
     trace := trace st |}.

Definition close (st : LoopState) : LoopState :=
  {| conversationMessages := conversationMessages st;
     historyShared := historyShared st;
     heap := heap st;
     currentRequest := currentRequest st;
     continueLoop := continueLoop st;
     iterationCount := iterationCount st;
     trace := trace st ++ [Close] |}.

Definition count_iteration (st : LoopState) : LoopState :=
  {| conversationMessages := conversationMessages st;
     historyShared := historyShared st;
     heap := heap st;
     currentRequest := currentRequest st;
     continueLoop := continueLoop st;
     iterationCount := S (iterationCount st);
     trace := trace st |}.

(** The loop either goes on or an exception leaves it for the [catch]. *)
Inductive Flow : Type :=
| Running (st : LoopState)
| Raised (st : LoopState) (errorMessage : option string).

Definition maxIterations : nat := 10.

Definition sorry_message : string :=
  "Sorry, I encountered an error. Please try again.".

(** [m || fallback] for a message that may be missing or empty *)
Definition message_or (fallback : string) (m : option string) : string :=
  match m with
  | Some s => if String.eqb s "" then fallback else s
  | None => fallback
  end.

(** The ['text'] and ['error'] handlers; [thinking] is
    [(isInThinkingBlock, thinkingStartTime)]. *)
Definition on_callback (acc : (bool * option Z) * LoopState)
    (cb : StreamCallback) : (bool * option Z) * LoopState :=
  let '((isInThinkingBlock, thinkingStartTime), st) := acc in
  match cb with
  | OnText lastBlockThinking text now =>
      if lastBlockThinking then
        if negb isInThinkingBlock then
          ((true, Some now), enqueue [EvReasoningStart; EvReasoning text] st)
        else ((isInThinkingBlock, thinkingStartTime), enqueue [EvReasoning text] st)
      else if isInThinkingBlock then
        let duration :=
          match thinkingStartTime with
          | Some t => if Z.eqb t 0 then 0%Z else (now - t)%Z
          | None => 0%Z
          end in
        ((false, None), enqueue [EvReasoningEnd duration; EvContent text] st)
      else ((isInThinkingBlock, thinkingStartTime), enqueue [EvContent text] st)
  | OnError errorMessage =>
      ((isInThinkingBlock, thinkingStartTime),
       stop_loop
         (enqueue [EvError (message_or "Stream error occurred" errorMessage)
                     sorry_message] st))
  end.

(** The objects of a final message enter the heap; its blocks refer to
    them. *)
Fixpoint allocate (heap : Heap) (content : list WireBlock)
  : list ContentBlock * Heap :=
  match content with
  | [] => ([], heap)
  | WText t :: rest =>
      let '(bs, h) := allocate heap rest in (TextBlock t :: bs, h)
  | WThinking t :: rest =>
      let '(bs, h) := allocate heap rest in (ThinkingBlock t :: bs, h)
  | WToolUse id n input :: rest =>
      let '(bs, h) := allocate (heap ++ [input]) rest in
      (ToolUseBlock id n (length heap) :: bs, h)
  end.

(** [content.filter((c) => c.type === 'tool_use')] *)
Definition toolUseBlocks (content : list ContentBlock)
  : list (string * string * Loc) :=
  flat_map (fun b => match b with
                     | ToolUseBlock id n l => [(id, n, l)]
                     | _ => []
                     end) content.

Section Controller.

Variable impl : ToolImplementations.

(** The provider: the turn it gives to the call number [n] on the
    messages it is sent. *)
Variable client : nat -> list WireMessage -> ProviderTurn.

(** The body of [for (const toolUse of toolUseBlocks)]: the results
    collected, unless a [JSON.stringify] throws.  The [tool_result] event
    is serialized with the result of the call in it, and the result of a
    success is serialized once more for the conversation; both happen
    outside the [try] of [executeToolCall]. *)
Fixpoint executeToolUses (uses : list (string * string * Loc))
    (toolResults : list ToolResultBlock) (st : LoopState)
  : Outcome (list ToolResultBlock) * LoopState :=
  match uses with
  | [] => (Returned toolResults, st)
  | (id, toolName, input) :: rest =>
      let st :=
        enqueue [EvToolCall id toolName (default [] (heap st !! input)) false] st in
      let '(executionResult, (h, request)) :=
        executeToolCall impl toolName input (currentRequest st) (heap st) in
      let st := set_request request (set_heap h st) in
      match stringify (result_value executionResult) with
      | Threw e => (Threw e, st)
      | Returned _ =>
          let st := enqueue [EvToolResult id toolName executionResult] st in
          if success executionResult then
            match stringify (result_value executionResult) with
            | Threw e => (Threw e, st)
            | Returned text =>
                executeToolUses rest
                  (toolResults
                   ++ [{| tool_use_id := id;
                          tool_result_content := Stringified text |}]) st
            end
          else
            executeToolUses rest
              (toolResults
               ++ [{| tool_use_id := id;
                      tool_result_content :=
                        ErrorText (result_error executionResult) |}]) st
      end
  end.

(** One round of the [while] loop. *)
Definition iteration (st : LoopState) : Flow :=
  let st := count_iteration st in
  let turn :=
    client (iterationCount st)
      (List.map (resolve (heap st)) (conversationMessages st)) in
  let '(_, st) := fold_left on_callback (callbacks turn) ((false, None), st) in
  match finalMessage turn with
  | Threw e => Raised st e
  | Returned final =>
      let '(blocks, h) := allocate (heap st) (content final) in
      let st := set_heap h st in
      match toolUseBlocks blocks with
      | [] =>
          Running
            (enqueue [EvDone (Some (stop_reason final, input_tokens final,
                                    output_tokens final))]
               (stop_loop st))
      | uses =>
          let st := push (Appended assistant (Blocks blocks)) st in
          match executeToolUses uses [] st with
          | (Returned toolResults, st) =>
              Running (push (Appended user (ToolResults toolResults)) st)
          | (Threw e, st) => Raised st e
          end
      end
  end.

(** [while (continueLoop && iterationCount < maxIterations)] *)
Fixpoint toolLoop (fuel : nat) (st : LoopState) : result Flow :=
  if continueLoop st && (iterationCount st <? maxIterations)%nat then
    match fuel with
    | O => OutOfFuel
    | S fuel' =>
        match iteration st with
        | Running st' => toolLoop fuel' st'
        | Raised st' e => Ok (Raised st' e)
        end
    end
  else Ok (Running st).

(** [start(controller)] of the stream. *)
Definition start (fuel : nat) (request : LocalAgentRequest)
    (model systemPrompt : string) : result LoopState :=
  let st :=
    {| conversationMessages :=
         List.map FromHistory
           (default [] (conversationHistory request));
       historyShared :=
         match conversationHistory request with Some _ => true | None => false end;
       heap := [];
       currentRequest := request;
       continueLoop := true;
       iterationCount := 0;
       trace := [] |} in
  let st := enqueue [EvStart model "anthropic" systemPrompt] st in
  let st := push (Appended user (Text (message request))) st in
  let* flow := toolLoop fuel st in
  match flow with
  | Running st =>
      let st :=
        if (maxIterations <=? iterationCount st)%nat then
          enqueue
            [EvError "Max tool execution iterations reached"
               "The conversation has reached the maximum number of tool executions.";
             EvDone None] st
        else st in
      Ok (close st)
  | Raised st e =>
      let st :=
        enqueue [EvError (default "Unknown error" e) sorry_message;
                 EvDone None] st in
      Ok (close st)
  end.

End Controller.

Definition newline : string := String (ascii_of_nat 10) EmptyString.

(** [buildSystemPrompt]; [template] is the fixed text of the prompt, which
    mentions the user's name when there is one. *)
Definition buildSystemPrompt (template : option string -> string)
    (userName : option string) (contexts : option (list (string * string)))
    (cachedPrompt : option string) : string :=
  let built :=
    String.append (template userName)
      match contexts with
      | Some (c :: cs) =>
          String.concat ""
            ([ newline; newline; "## Additional Context"; newline; newline ]
             ++ List.map (fun c => String.concat ""
                                     [ "### "; fst c; newline; snd c;
                                       newline; newline ]) (c :: cs))
      | _ => ""
      end in
  match cachedPrompt with
  | Some cached => if String.eqb cached "" then built else cached
  | None => built
  end.

(** [createAnthropicStream(request, client, model)]: the stream it
    produces, unless the conversion of the tools throws.  The provider is
    given the converted tools, or [undefined] when there are none. *)
Definition createAnthropicStream (regexp_valid : string -> bool)
    (template : option string -> string) (impl : ToolImplementations)
    (client : option (list AnthropicTool) -> nat -> list WireMessage -> ProviderTurn)
    (fuel : nat) (request : LocalAgentRequest) (model : string)
  : result LoopState :=
  let systemPrompt :=
    buildSystemPrompt template (userName request) (context request)
      (systemPromptCache request) in
  let* anthropicTools :=
    convertToolsToAnthropic regexp_valid
      (toolsToConvert (baseTools request) (tools request)) in
  start impl
    (client match anthropicTools with [] => None | _ => Some anthropicTools end)
    fuel request model systemPrompt.

(** ** Entry point: [getAIClient], [mapModelName] and
    [handleLocalAgentRequest] *)

(** The keys of the environment, possibly missing. *)
Record Env : Type := {
  ANTHROPIC_API_KEY : option string;
  OPENAI_API_KEY : option string;
}.

Inductive ClientType : Type := anthropic_client | openai_client.

(** [!apiKey] *)
Definition no_key (apiKey : option string) : bool :=
  match apiKey with Some k => String.eqb k "" | None => true end.

(** [getAIClient(provider)]: the type of the client it makes, or the
    message of the error it throws. *)
Definition getAIClient (env : Env) (provider : string) : Outcome ClientType :=
  if String.eqb provider "anthropic" || String.eqb provider "claude" then
    if no_key (ANTHROPIC_API_KEY env)
    then Threw (Some "ANTHROPIC_API_KEY not configured")
    else Returned anthropic_client
  else if String.eqb provider "openai" || String.eqb provider "gpt" then
    if no_key (OPENAI_API_KEY env)
    then Threw (Some "OPENAI_API_KEY not configured")
    else Returned openai_client
  else Threw (Some (String.append "Unsupported provider: " provider)).

Definition anthropicModels : list (string * string) :=
  [ ("claude-4.5-sonnet", "claude-sonnet-4-5-20250929");
    ("claude-4.5-opus", "claude-opus-4-5-20251101");
    ("claude-4.5-haiku", "claude-haiku-4-5-20251001");
    ("claude-4-sonnet", "claude-sonnet-4-5-20250929");
    ("claude-3.5-sonnet", "claude-3-5-sonnet-20241022");
    ("claude-3-5-sonnet-20241022", "claude-3-5-sonnet-20241022") ].

Definition openaiModels : list (string * string) :=
  [ ("gpt-4o", "gpt-4o");
    ("gpt-4.1", "gpt-4-turbo");
    ("gpt-4", "gpt-4-turbo");
    ("gpt-3.5", "gpt-3.5-turbo") ].

(** The names an object literal inherits from [Object.prototype]: a
    lookup under one of them finds a function (or the prototype
    itself). *)
Definition object_prototype_members : list string :=
  [ "constructor"; "__defineGetter__"; "__defineSetter__"; "hasOwnProperty";
    "__lookupGetter__"; "__lookupSetter__"; "isPrototypeOf";
    "propertyIsEnumerable"; "toString"; "valueOf"; "__proto__";
    "toLocaleString" ].

(** What [mapModelName] returns: a model identifier, or the member of
    [Object.prototype] that the name designates. *)
Inductive ModelName : Type :=
| ModelId (id : string)
| InheritedMember (member : string).

(** [table[modelName] || fallback], the values of the tables being
    non-empty strings *)
Definition table_or (table : list (string * string)) (modelName fallback : string)
  : ModelName :=
  match find (fun kv => String.eqb (fst kv) modelName) table with
  | Some kv => ModelId (snd kv)
  | None =>
      if includes modelName object_prototype_members
      then InheritedMember modelName
      else ModelId fallback
  end.

Definition mapModelName (modelName provider : string) : ModelName :=
  if String.eqb provider "anthropic" then
    table_or anthropicModels modelName "claude-3-5-sonnet-20241022"
  else if String.eqb provider "openai" then
    table_or openaiModels modelName "gpt-4o"
  else ModelId modelName.

(** [request.provider] *)
Record ProviderConfig : Type := {
  provider : string;
  provider_model : option string;
  provider_apiKey : option string;
}.

(** [a || b] on strings that may be missing *)
Definition string_or (a : option string) (b : string) : string :=
  match a with
  | Some s => if String.eqb s "" then b else s
  | None => b
  end.

(** [handleLocalAgentRequest(request)], from [request.model] and
    [request.provider]: the model [createAnthropicStream] is called with,
    or the message of the error thrown. *)
Definition handleLocalAgentRequest (env : Env) (requestModel : option string)
    (requestProvider : option ProviderConfig) : Outcome ModelName :=
  let provider :=
    string_or (match requestProvider with
               | Some p => Some (provider p)
               | None => None
               end) "anthropic" in
  let modelName :=
    string_or requestModel
      (string_or (match requestProvider with
                  | Some p => provider_model p
                  | None => None
                  end) "claude-3-5-sonnet-20241022") in
  match getAIClient env provider with
  | Threw e => Threw e
  | Returned aiClient =>
      let mappedModel := mapModelName modelName provider in
      match aiClient with
      | anthropic_client => Returned mappedModel
      | openai_client => Threw (Some "OpenAI support not yet implemented")
      end
  end.

(** * Properties *)

(** ** Objects *)

Lemma obj_get_filter_keys keep k o :
  obj_get k (obj_filter_keys keep o) = if keep k then obj_get k o else None.
Proof.
  induction o as [|[k' v] o IH]; simpl.
  - by destruct (keep k).
  - destruct (keep k') eqn:Hk'; simpl;
      destruct (String.eqb_spec k' k) as [->|Hne]; rewrite ?Hk'; auto;
      by rewrite IH, ?Hk'.
Qed.

Lemma obj_get_delete k k' o :
  obj_get k (obj_delete k' o) = if String.eqb k k' then None else obj_get k o.
Proof.
  unfold obj_delete. rewrite obj_get_filter_keys.
  by destruct (String.eqb k k').
Qed.

Lemma obj_get_set k k' v o :
  obj_get k (obj_set k' v o) = if String.eqb k' k then Some v else obj_get k o.
Proof.
  induction o as [|[k0 v0] o IH]; simpl.
  - done.
  - destruct (String.eqb_spec k0 k') as [->|Hne]; simpl.
    + by destruct (String.eqb k' k).
    + rewrite IH. destruct (String.eqb_spec k0 k) as [->|Hne0]; [|done].
      destruct (String.eqb_spec k' k); congruence.
Qed.

Lemma obj_set_same k v o : obj_get k o = Some v -> obj_set k v o = o.
Proof.
  induction o as [|[k0 v0] o IH]; simpl; [done|].
  destruct (String.eqb_spec k0 k) as [->|Hne]; intros H.
  - congruence.
  - by rewrite IH.
Qed.

Lemma obj_filter_keys_all keep o :
  Forall (fun kv => keep (fst kv) = true) o -> obj_filter_keys keep o = o.
Proof.
  induction 1 as [|kv o Hkv _ IH]; simpl; [done|].
  rewrite Hkv. f_equal. exact IH.
Qed.

Lemma obj_get_key_in k v o : obj_get k o = Some v -> In (k, v) o.
Proof.
  induction o as [|[k0 v0] o IH]; simpl; [done|].
  destruct (String.eqb_spec k0 k) as [->|Hne]; intros H.
  - left. congruence.
  - right. auto.
Qed.

Lemma obj_in_get k v o : In (k, v) o -> exists v', obj_get k o = Some v'.
Proof.
  induction o as [|[k0 v0] o IH]; simpl; [done|].
  intros [H|H]; destruct (String.eqb_spec k0 k) as [->|Hne]; eauto.
  congruence.
Qed.

Lemma obj_delete_absent k o : obj_get k o = None -> obj_delete k o = o.
Proof.
  intros H. apply obj_filter_keys_all, List.Forall_forall.
  intros [k0 v0] Hin. simpl.
  destruct (String.eqb_spec k0 k) as [->|Hne]; [|done].
  apply obj_in_get in Hin as [v' Hv']. congruence.
Qed.

(** Every key of [o] satisfies [P]. *)
Definition keys_all (P : string -> bool) (o : JsObject) : Prop :=
  Forall (fun kv => P (fst kv) = true) o.

Lemma keys_all_filter P keep o :
  keys_all P o -> keys_all P (obj_filter_keys keep o).
Proof.
  unfold keys_all, obj_filter_keys. rewrite !List.Forall_forall.
  intros H kv Hin. apply filter_In in Hin as [Hin _]. auto.
Qed.

Lemma keys_all_filter_self keep o : keys_all keep (obj_filter_keys keep o).
Proof.
  unfold keys_all, obj_filter_keys. rewrite List.Forall_forall.
  intros kv Hin. by apply filter_In in Hin as [_ Hin].
Qed.

Lemma keys_all_set P k v o :
  P k = true -> keys_all P o -> keys_all P (obj_set k v o).
Proof.
  intros Hk. unfold keys_all.
  induction 1 as [|[k0 v0] o Hkv Ho IH]; simpl.
  - by repeat constructor.
  - destruct (String.eqb k0 k); constructor; auto.
Qed.

Lemma keys_all_get P k v o : keys_all P o -> obj_get k o = Some v -> P k = true.
Proof.
  unfold keys_all. rewrite List.Forall_forall. intros H Hget.
  apply obj_get_key_in in Hget. exact (H _ Hget).
Qed.

(** ** Depth of the parts of a value *)

Lemma depth_in_array v l : In v l -> depth v < depth (JArr l).
Proof.
  intros Hin. simpl. apply Nat.lt_succ_r.
  assert (H := list_max_le (List.map depth l) (list_max (List.map depth l))).
  destruct H as [H _]. specialize (H (Nat.le_refl _)).
  rewrite List.Forall_forall in H. apply H, in_map, Hin.
Qed.

Lemma depth_in_fields k v o : In (k, v) o -> depth v < depth (JObj o).
Proof.
  intros Hin. simpl. apply Nat.lt_succ_r.
  set (ds := List.map (fun kv : string * Json => depth (snd kv)) o).
  destruct (list_max_le ds (list_max ds)) as [H _].
  specialize (H (Nat.le_refl _)). rewrite List.Forall_forall in H.
  apply H. unfold ds. by apply (in_map (fun kv => depth (snd kv)) _ (k, v)).
Qed.

Lemma array_entries_in k v i l : In (k, v) (array_entries i l) -> In v l.
Proof.
  revert i. induction l as [|x l IH]; simpl; intros i; [done|].
  intros [H|H]; [left; congruence | right; eauto].
Qed.

Lemma depth_in_entries k v x : In (k, v) (own_entries x) -> depth v < depth x.
Proof.
  destruct x; simpl; try done; intros Hin.
  - apply depth_in_array. eapply array_entries_in, Hin.
  - eapply depth_in_fields, Hin.
Qed.

Lemma obj_get_define k k' v o :
  obj_get k (obj_define k' v o) = if String.eqb k' k then Some v else obj_get k o.
Proof.
  induction o as [|[k0 v0] o IH]; simpl.
  - done.
  - destruct (String.eqb_spec k0 k') as [->|Hne]; simpl.
    + by destruct (String.eqb k' k).
    + destruct (listed_before k' k0 && negb (obj_has k' o)); simpl.
      * by destruct (String.eqb k' k).
      * rewrite IH. destruct (String.eqb_spec k0 k) as [->|Hne0]; [|done].
        destruct (String.eqb_spec k' k); congruence.
Qed.

Lemma obj_get_assign k a b :
  obj_get k (obj_assign a b)
  = match obj_get k b with Some v => Some v | None => obj_get k a end.
Proof.
  unfold obj_assign.
  assert (Hgen : forall (l acc : JsObject),
    (forall k' v', In (k', v') l -> exists w, obj_get k' b = Some w) ->
    obj_get k (fold_left
                 (fun acc kv => match obj_get (fst kv) b with
                                | Some v => obj_define (fst kv) v acc
                                | None => acc
                                end) l acc)
    = if existsb (fun kv => String.eqb (fst kv) k) l
      then obj_get k b else obj_get k acc).
  { induction l as [|[k0 v0] l IH]; intros acc Hl; simpl; [done|].
    rewrite IH by (intros; eapply Hl; right; eauto).
    destruct (Hl k0 v0) as [w Hw]; [by left|]. rewrite Hw.
    destruct (existsb _ l) eqn:Hex.
    - by rewrite orb_true_r.
    - rewrite orb_false_r, obj_get_define.
      destruct (String.eqb_spec k0 k) as [->|Hne]; congruence. }
  rewrite Hgen by (intros; eapply obj_in_get; eauto).
  destruct (existsb _ b) eqn:Hex.
  - apply existsb_exists in Hex as [[k0 v0] [Hin Heq]]. simpl in Heq.
    apply String.eqb_eq in Heq as ->.
    apply obj_in_get in Hin as [w Hw]. by rewrite Hw.
  - destruct (obj_get k b) eqn:Hget; [|done].
    apply obj_get_key_in in Hget.
    assert (existsb (fun kv : string * Json => String.eqb (fst kv) k) b = true).
    { apply existsb_exists. exists (k, j). split; [done|]. apply String.eqb_refl. }
    congruence.
Qed.

(** ** The tool cap *)

(** When the combined tools exceed the cap of 100 and the base tools
    number at most 100, the list cut for the conversion is all the base
    tools followed by the first (100 - number of base tools) of the other
    tools, each group in its original order, 100 tools in all. *)
Lemma toolsToConvert_over_cap (baseTools tools : list Tool) :
  MAX_TOOLS < length (baseTools ++ tools) ->
  length baseTools <= MAX_TOOLS ->
  toolsToConvert (Some baseTools) (Some tools)
  = baseTools ++ firstn (MAX_TOOLS - length baseTools) tools
  /\ length (firstn (MAX_TOOLS - length baseTools) tools)
     = MAX_TOOLS - length baseTools
  /\ length (toolsToConvert (Some baseTools) (Some tools)) = MAX_TOOLS.
Proof.
  intros Hover Hbase. rewrite length_app in Hover.
  assert (Hfirst : length (firstn (MAX_TOOLS - length baseTools) tools)
                   = MAX_TOOLS - length baseTools).
  { rewrite length_firstn. lia. }
  assert (Heq : toolsToConvert (Some baseTools) (Some tools)
                = baseTools ++ firstn (MAX_TOOLS - length baseTools) tools).
  { unfold toolsToConvert. simpl default.
    destruct (Nat.ltb_spec MAX_TOOLS (length (baseTools ++ tools))) as [_|Hle];
      [|rewrite length_app in Hle; lia].
    destruct (Z.ltb_spec 0 (Z.of_nat MAX_TOOLS - Z.of_nat (length baseTools)))
      as [Hpos|Hnpos].
    - do 2 f_equal. lia.
    - assert (Hfull : length baseTools = MAX_TOOLS) by lia.
      rewrite Hfull, Nat.sub_diag. simpl firstn. rewrite app_nil_r.
      apply firstn_all2. lia. }
  split; [exact Heq|]. split; [exact Hfirst|].
  rewrite Heq, length_app, Hfirst. lia.
Qed.

Definition numbered_tool (prefix : string) (i : nat) : Tool :=
  {| tool_name := String.append prefix (index_key i);
     tool_description := None;
     tool_input_schema := None |}.

(** C7 on the code. Of 20 base tools and 130 other tools, the first of
    which has the name of a base tool, 99 tools are sent to the provider
    and not 100: the list is cut to 100 before the duplicate is dropped, so
    that only 79 of the 129 other tools with a name of their own are
    sent. *)
Theorem duplicate_name_wastes_a_slot :
  let baseTools := List.map (numbered_tool "base_") (seq 0 20) in
  let others := List.map (numbered_tool "tool_") (seq 1 129) in
  let tools := numbered_tool "base_" 0 :: others in
  length baseTools = 20 /\ length tools = 130
  /\ exists sent,
       convertToolsToAnthropic (fun _ => true)
         (toolsToConvert (Some baseTools) (Some tools))
       = Ok sent
       /\ length sent = 99
       /\ List.map name sent
          = List.map tool_name baseTools
            ++ List.map tool_name (firstn 79 others).
Proof.
  cbv zeta. split; [reflexivity|]. split; [reflexivity|].
  eexists. split; [vm_compute; reflexivity|].
  split; vm_compute; reflexivity.
Qed.

(** ** Deduplication of the converted tools *)

Lemma bind_Ok {A B} (r : result A) (f : A -> result B) b :
  bind r f = Ok b -> exists a, r = Ok a /\ f a = Ok b.
Proof. destruct r; simpl; intros H; try done. eauto. Qed.

Lemma convertTool_name rv tool t :
  convertTool rv tool = Ok t -> name t = tool_name tool.
Proof.
  unfold convertTool. intros H.
  apply bind_Ok in H as (c1 & _ & H).
  apply bind_Ok in H as (c2 & _ & H).
  apply bind_Ok in H as (c3 & _ & H).
  by inversion H.
Qed.

Lemma mapM_find {A B} (f : A -> result B) (p : A -> bool) (q : B -> bool) l l' :
  mapM f l = Ok l' ->
  (forall x y, f x = Ok y -> q y = p x) ->
  match find p l with
  | Some x => exists y, f x = Ok y /\ find q l' = Some y
  | None => find q l' = None
  end.
Proof.
  intros Hmap Hpq. revert l' Hmap.
  induction l as [|x l IH]; simpl; intros l' Hmap.
  - by inversion Hmap.
  - destruct (f x) as [y| |] eqn:Hfx; simpl in Hmap; try done.
    destruct (mapM f l) as [ys| |] eqn:Hl; simpl in Hmap; try done.
    inversion Hmap; subst l'. simpl. rewrite (Hpq _ _ Hfx).
    destruct (p x); [eauto|]. by apply IH.
Qed.

Definition named (n : string) (t : AnthropicTool) : bool := String.eqb (name t) n.

Lemma has_name_filter n l :
  has_name n l = match List.filter (named n) l with [] => false | _ => true end.
Proof.
  unfold has_name. induction l as [|t l IH]; simpl; [done|].
  unfold named at 1. by destruct (String.eqb (name t) n).
Qed.

Lemma deduplicate_from l : forall acc,
  let out :=
    fold_left (fun uniqueTools tool =>
                 if has_name (name tool) uniqueTools then uniqueTools
                 else uniqueTools ++ [tool]) l acc in
  (NoDup (List.map name acc) -> NoDup (List.map name out))
  /\ forall n,
       List.filter (named n) out
       = List.filter (named n) acc
         ++ (if has_name n acc then []
             else match find (named n) l with Some t => [t] | None => [] end).
Proof.
  induction l as [|t l IH]; intros acc; simpl.
  - split; [done|]. intros n. destruct (has_name n acc); by rewrite app_nil_r.
  - destruct (has_name (name t) acc) eqn:Hhas.
    + destruct (IH acc) as [Hnd Hf]. split; [done|].
      intros n. rewrite Hf. change (named n t) with (String.eqb (name t) n).
      destruct (String.eqb_spec (name t) n) as [<-|Hne]; [|done].
      by rewrite Hhas.
    + destruct (IH (acc ++ [t])) as [Hnd Hf]. split.
      * intros Hacc. apply Hnd. rewrite List.map_app. simpl.
        apply NoDup_app. split; [done|]. split; [|repeat constructor; by inversion 1].
        intros x Hx Hx'. apply list_elem_of_In in Hx, Hx'.
        destruct Hx' as [<-|[]]. apply in_map_iff in Hx as [t' [Heq Hin]].
        assert (Hex : has_name (name t) acc = true).
        { apply existsb_exists. exists t'. split; [done|].
          rewrite Heq. apply String.eqb_refl. }
        congruence.
      * intros n. rewrite Hf, List.filter_app. simpl. rewrite <- app_assoc. f_equal.
        rewrite (has_name_filter n (acc ++ [t])), List.filter_app. simpl.
        change (named n t) with (String.eqb (name t) n).
        destruct (String.eqb_spec (name t) n) as [<-|Hne].
        -- rewrite Hhas. by destruct (List.filter _ acc).
        -- rewrite app_nil_r, <- has_name_filter. done.
Qed.

(** C8. When every tool converts, the converted set has each name once,
    and for a name that several tools share its entry is the conversion of
    the first tool of that name; the later ones are dropped, and the
    conversion still returns. *)
Theorem convertToolsToAnthropic_first_wins rv tools converted :
  mapM (convertTool rv) tools = Ok converted ->
  exists out,
    convertToolsToAnthropic rv tools = Ok out
    /\ NoDup (List.map name out)
    /\ forall n, In n (List.map tool_name tools) ->
         exists tool t,
           find (fun x => String.eqb (tool_name x) n) tools = Some tool
           /\ convertTool rv tool = Ok t
           /\ List.filter (fun a => String.eqb (name a) n) out = [t].
Proof.
  intros Hmap. exists (deduplicate converted).
  unfold convertToolsToAnthropic. rewrite Hmap. simpl. split; [done|].
  destruct (deduplicate_from converted []) as [Hnd Hf].
  split; [apply Hnd; constructor|].
  intros n Hn.
  pose proof (mapM_find (convertTool rv)
                (fun x => String.eqb (tool_name x) n) (named n) tools converted
                Hmap) as Hfind.
  destruct (find (fun x => String.eqb (tool_name x) n) tools) as [tool|] eqn:Hft.
  - destruct Hfind as [t [Ht Hfc]].
    { intros x y Hxy. unfold named. by rewrite (convertTool_name _ _ _ Hxy). }
    exists tool, t. split; [done|]. split; [done|].
    unfold deduplicate. fold (named n). rewrite Hf. simpl. by rewrite Hfc.
  - apply in_map_iff in Hn as [x [Hx Hin]].
    eapply find_none in Hft; [|exact Hin]. simpl in Hft.
    rewrite Hx, String.eqb_refl in Hft. done.
Qed.

Definition duplicated_tools : list Tool :=
  [ {| tool_name := "search"; tool_description := Some "first";
       tool_input_schema := Some (JObj [("type", JStr "object")]) |};
    {| tool_name := "fetch"; tool_description := None;
       tool_input_schema := None |};
    {| tool_name := "search"; tool_description := Some "second";
       tool_input_schema := Some (JObj [("type", JStr "string")]) |} ].

Lemma convertToolsToAnthropic_first_wins_witness :
  exists out,
    convertToolsToAnthropic (fun _ => true) duplicated_tools = Ok out
    /\ NoDup (List.map name out)
    /\ forall n, In n (List.map tool_name duplicated_tools) ->
         exists tool t,
           find (fun x => String.eqb (tool_name x) n) duplicated_tools = Some tool
           /\ convertTool (fun _ => true) tool = Ok t
           /\ List.filter (fun a => String.eqb (name a) n) out = [t].
Proof.
  eapply convertToolsToAnthropic_first_wins.
  vm_compute. reflexivity.
Defined.

Example deduplicate_example :
  convertToolsToAnthropic (fun _ => true) duplicated_tools
  = Ok [ {| name := "search"; description := "first";
            input_schema := JObj [("type", JStr "object")] |};
         {| name := "fetch"; description := "fetch";
            input_schema := JObj [("type", JStr "object"); ("properties", JObj [])] |} ].
Proof. vm_compute. reflexivity. Qed.

(** ** The dispatcher *)

(** [Object.keys(request.credentials.oauth)], empty when there is no
    [oauth] *)
Definition oauthProviders (request : LocalAgentRequest) : list string :=
  match credentials request with
  | Some c => match oauth c with Some o => List.map fst o | None => [] end
  | None => []
  end.

(** The context object of a request. *)
Definition context_of (request : LocalAgentRequest) : Json :=
  JObj [("workflowId", JStr (workflowId request));
        ("userId", JStr (userId request))].

Lemma not_privileged toolName :
  includes toolName privileged_tools = false ->
  String.eqb toolName "function_execute" = false
  /\ String.eqb toolName "edit_workflow" = false
  /\ String.eqb toolName "get_workflow_console" = false
  /\ String.eqb toolName "get_blocks_metadata" = false
  /\ String.eqb toolName "get_blocks_and_tools" = false.
Proof.
  unfold includes, privileged_tools. simpl. rewrite !orb_false_iff. tauto.
Qed.

(** The call prepared for a tool of the general registry. *)
Lemma prepareToolCall_registry toolName loc toolInput request heap :
  includes toolName privileged_tools = false ->
  let toolInput' :=
    obj_set "_context" (context_of request)
      match oauthProviders request with
      | first :: _ => obj_set "credential" (JStr first) toolInput
      | [] => toolInput
      end in
  prepareToolCall toolName loc toolInput request heap
  = (InvExecuteTool toolName toolInput'
       {| ctx_userId := userId request; ctx_workflowId := workflowId request |},
     <[loc := toolInput']> heap).
Proof.
  intros Hnp. apply not_privileged in Hnp as (H1 & H2 & H3 & H4 & H5).
  unfold prepareToolCall, oauthProviders, context_of.
  rewrite H1, H2, H3, H4, H5.
  destruct (credentials request) as [c|]; [|done].
  destruct (oauth c) as [o|]; [|done].
  by destruct (List.map fst o).
Qed.

Definition sample_request (providers : list string) : LocalAgentRequest :=
  {| message := "send the report";
     workflowId := "wf-1";
     userId := "user-1";
     context := None;
     tools := None;
     baseTools := None;
     credentials :=
       Some {| oauth :=
                 Some (List.map
                         (fun p => (p, {| accessToken := "token";
                                          accountId := "account";
                                          credentialName := p |}))
                         providers);
               apiKeys := [] |};
     conversationHistory := None;
     userName := None;
     systemPromptCache := None |}.

(** C2, as stated, fails: with two OAuth providers the input of a registry
    tool gets the first of them as [credential]. *)
Lemma credential_set_with_two_providers :
  let request := sample_request ["google"; "slack"] in
  let toolInput := [("to", JStr "someone")] in
  length (oauthProviders request) = 2
  /\ obj_get "credential" toolInput = None
  /\ obj_get "credential"
       (invocation_input
          (fst (prepareToolCall "gmail_send" 0 toolInput request [toolInput])))
     = Some (JStr "google").
Proof. vm_compute. auto. Qed.

(** C2, amended. For a tool of the general registry the input handed to
    the tool has the first OAuth provider of the credential set as
    [credential] whenever there is at least one provider, and its own
    [credential] field, if any, when there is none. *)
Theorem prepareToolCall_credential toolName loc toolInput request heap :
  includes toolName privileged_tools = false ->
  obj_get "credential"
    (invocation_input (fst (prepareToolCall toolName loc toolInput request heap)))
  = match oauthProviders request with
    | first :: _ => Some (JStr first)
    | [] => obj_get "credential" toolInput
    end.
Proof.
  intros Hnp. rewrite prepareToolCall_registry by done. simpl.
  rewrite obj_get_set. simpl.
  destruct (oauthProviders request); [done|].
  rewrite obj_get_set. by rewrite String.eqb_refl.
Qed.

Lemma prepareToolCall_credential_witness :
  obj_get "credential"
    (invocation_input
       (fst (prepareToolCall "gmail_send" 0 [("to", JStr "someone")]
               (sample_request ["google"]) [[("to", JStr "someone")]])))
  = match oauthProviders (sample_request ["google"]) with
    | first :: _ => Some (JStr first)
    | [] => obj_get "credential" [("to", JStr "someone")]
    end.
Proof.
  apply prepareToolCall_credential. vm_compute. reflexivity.
Defined.

(** C3, as stated, fails: a privileged tool is called without the context
    object. *)
Lemma privileged_tool_without_context :
  let request := sample_request [] in
  let toolInput := [("blockIds", JArr [JStr "agent"])] in
  includes "get_blocks_metadata" privileged_tools = true
  /\ obj_get "_context"
       (invocation_input
          (fst (prepareToolCall "get_blocks_metadata" 0 toolInput request
                  [toolInput])))
     = None.
Proof. vm_compute. auto. Qed.

(** C3, amended. A tool of the general registry is executed on its input
    with [_context] set to the workflow and user identifiers of the
    request; a privileged tool is executed on an input to which no
    [_context] was added. *)
Theorem prepareToolCall_context toolName loc toolInput request heap :
  let inv := fst (prepareToolCall toolName loc toolInput request heap) in
  if includes toolName privileged_tools
  then obj_get "_context" (invocation_input inv) = None
       \/ obj_get "_context" (invocation_input inv) = obj_get "_context" toolInput
  else obj_get "_context" (invocation_input inv) = Some (context_of request).
Proof.
  cbv zeta. destruct (includes toolName privileged_tools) eqn:Hp.
  - unfold prepareToolCall.
    destruct (String.eqb toolName "function_execute") eqn:H1.
    { left. simpl. by destruct (obj_get "code" toolInput). }
    destruct (String.eqb toolName "edit_workflow") eqn:H2.
    { right. simpl. rewrite obj_get_assign. by destruct (obj_get _ toolInput). }
    destruct (String.eqb toolName "get_workflow_console") eqn:H3.
    { right. simpl. rewrite obj_get_assign. by destruct (obj_get _ toolInput). }
    destruct (String.eqb toolName "get_blocks_metadata") eqn:H4. { by right. }
    destruct (String.eqb toolName "get_blocks_and_tools") eqn:H5. { by left. }
    unfold includes, privileged_tools in Hp. simpl in Hp.
    rewrite H1, H2, H3, H4, H5 in Hp. discriminate.
  - rewrite prepareToolCall_registry by done. simpl.
    by rewrite obj_get_set.
Qed.

(** The request-scoped workflow identifier is only a default. *)
Lemma workflow_args_get request toolInput :
  obj_get "workflowId"
    (obj_assign [("workflowId", JStr (workflowId request))] toolInput)
  = Some match obj_get "workflowId" toolInput with
         | Some v => v
         | None => JStr (workflowId request)
         end.
Proof.
  rewrite obj_get_assign. by destruct (obj_get "workflowId" toolInput).
Qed.

(** C10. For [edit_workflow] and [get_workflow_console] the [workflowId]
    of the arguments is the one of the tool input when the input has one,
    and the one of the request otherwise. *)
Theorem workflow_tools_input_overrides toolName loc toolInput request heap :
  toolName = "edit_workflow" \/ toolName = "get_workflow_console" ->
  obj_get "workflowId"
    (invocation_input (fst (prepareToolCall toolName loc toolInput request heap)))
  = Some match obj_get "workflowId" toolInput with
         | Some v => v
         | None => JStr (workflowId request)
         end.
Proof.
  intros [-> | ->]; simpl; apply workflow_args_get.
Qed.

Lemma workflow_tools_input_overrides_witness :
  obj_get "workflowId"
    (invocation_input
       (fst (prepareToolCall "edit_workflow" 0
               [("operations", JArr []); ("workflowId", JStr "wf-other")]
               (sample_request []) [])))
  = Some match obj_get "workflowId"
                 [("operations", JArr []); ("workflowId", JStr "wf-other")] with
         | Some v => v
         | None => JStr (workflowId (sample_request []))
         end.
Proof.
  apply workflow_tools_input_overrides. left. reflexivity.
Defined.

(** The spread lists the array indices of the input first, in ascending
    order, then [workflowId], then the other keys of the input. *)
Example spread_lists_indices_first :
  obj_assign [("workflowId", JStr "wf-1")]
    [("2", JNum 1); ("10", JNum 2); ("01", JNum 3); ("name", JStr "n")]
  = [("2", JNum 1); ("10", JNum 2); ("workflowId", JStr "wf-1");
     ("01", JNum 3); ("name", JStr "n")].
Proof. reflexivity. Qed.

Example edit_workflow_override :
  prepareToolCall "edit_workflow" 0
    [("operations", JArr []); ("workflowId", JStr "wf-other")]
    (sample_request []) []
  = (InvEditWorkflow
       [("workflowId", JStr "wf-other"); ("operations", JArr [])] "user-1", []).
Proof. reflexivity. Qed.

(** ** The tool execution loop *)

Definition is_tool_use (b : WireBlock) : bool :=
  match b with WToolUse _ _ _ => true | _ => false end.

Definition is_text_callback (cb : StreamCallback) : bool :=
  match cb with OnText _ _ _ => true | OnError _ => false end.

(** The turn completes, without a stream error, and its final message has
    a tool-invocation-request. *)
Definition requests_tools (turn : ProviderTurn) : bool :=
  forallb is_text_callback (callbacks turn)
  && match finalMessage turn with
     | Returned final => existsb is_tool_use (content final)
     | Threw _ => false
     end.

(** The turn completes and its final message has no
    tool-invocation-request. *)
Definition final_answer (turn : ProviderTurn) : bool :=
  match finalMessage turn with
  | Returned final => negb (existsb is_tool_use (content final))
  | Threw _ => false
  end.

(** [JSON.stringify] does not throw on the value. *)
Definition serializable (value : option JsValue) : bool :=
  match stringify value with Returned _ => true | Threw _ => false end.

(** Every result that the tools hand back can be serialized. *)
Definition serializable_results (impl : ToolImplementations) : Prop :=
  forall inv scope,
    serializable (result_value (fst (invoke impl inv scope))) = true.

(** [st'] continues the stream of [st]. *)
Definition extends (st st' : LoopState) : Prop :=
  exists actions, trace st' = trace st ++ actions.

Lemma extends_refl st : extends st st.
Proof. exists []. by rewrite app_nil_r. Qed.

Lemma extends_trans st1 st2 st3 :
  extends st1 st2 -> extends st2 st3 -> extends st1 st3.
Proof.
  intros [a Ha] [b Hb]. exists (a ++ b). by rewrite Hb, Ha, app_assoc.
Qed.

Lemma extends_enqueue events st : extends st (enqueue events st).
Proof. by eexists. Qed.

Lemma on_callback_spec th st cb :
  let st' := snd (on_callback (th, st) cb) in
  iterationCount st' = iterationCount st
  /\ extends st st'
  /\ (is_text_callback cb = true -> continueLoop st' = continueLoop st).
Proof.
  destruct th as [inThinking startTime], cb as [thinking text now|e]; simpl.
  - destruct thinking, inThinking; simpl;
      (split; [done|]; split; [apply extends_enqueue|done]).
  - split; [done|]. split; [apply extends_enqueue|done].
Qed.

Lemma callbacks_spec cbs : forall th st,
  let st' := snd (fold_left on_callback cbs (th, st)) in
  iterationCount st' = iterationCount st
  /\ extends st st'
  /\ (forallb is_text_callback cbs = true -> continueLoop st' = continueLoop st).
Proof.
  induction cbs as [|cb cbs IH]; intros th st; cbn [fold_left].
  - simpl. split; [done|]. split; [apply extends_refl|done].
  - destruct (on_callback (th, st) cb) as [th1 st1] eqn:Hcb.
    pose proof (on_callback_spec th st cb) as (Hc & He & Ht).
    rewrite Hcb in Hc, He, Ht. simpl in Hc, He, Ht.
    destruct (IH th1 st1) as (Hc' & He' & Ht').
    split; [congruence|]. split; [eapply extends_trans; eauto|].
    intros [Hcb' Hall]%andb_true_iff. rewrite Ht' by done. auto.
Qed.

Lemma allocate_tool_uses content : forall heap,
  match toolUseBlocks (fst (allocate heap content)) with
  | [] => existsb is_tool_use content = false
  | _ => existsb is_tool_use content = true
  end.
Proof.
  induction content as [|b content IH]; intros heap; simpl; [done|].
  destruct b as [t|t|id n input]; simpl.
  - specialize (IH heap). by destruct (allocate heap content).
  - specialize (IH heap). by destruct (allocate heap content).
  - by destruct (allocate (heap ++ [input]) content).
Qed.

Lemma executeToolCall_serializable impl toolName loc request heap :
  serializable_results impl ->
  serializable (result_value (fst (executeToolCall impl toolName loc request heap)))
  = true.
Proof.
  intros Hser. unfold executeToolCall.
  destruct (heap !! loc) as [toolInput|]; [|done].
  destruct (prepareToolCall toolName loc toolInput request heap) as [inv h].
  match goal with
  | |- context [invoke impl inv ?s] =>
      specialize (Hser inv s); destruct (invoke impl inv s) as [r scope]
  end.
  exact Hser.
Qed.

(** One step of the loop over the tool calls, then the rest of it. *)
Ltac tool_call_cases IH :=
  match goal with
  | |- context [executeToolCall ?i ?n ?l ?r ?h] =>
      let Hcall := fresh "Hcall" in
      destruct (executeToolCall i n l r h) as [executionResult [h' request']]
        eqn:Hcall;
      destruct (stringify (result_value executionResult)) as [text|e] eqn:Htext;
      [destruct (success executionResult) eqn:Hsuccess|];
      cbn [fst snd];
      repeat match goal with
        | |- context [executeToolUses _ _ ?r ?s] =>
            let H := fresh "IHrest" in
            let o := fresh "out" in
            let s' := fresh "st'" in
            pose proof (IH r s) as H;
            destruct (executeToolUses _ _ r s) as [o s']
        end
  end.

Section Loop.

Variable impl : ToolImplementations.
Variable client : nat -> list WireMessage -> ProviderTurn.

Lemma executeToolUses_spec uses : forall toolResults st,
  let st' := snd (executeToolUses impl uses toolResults st) in
  iterationCount st' = iterationCount st
  /\ continueLoop st' = continueLoop st
  /\ extends st st'.
Proof.
  induction uses as [|[[id toolName] input] uses IH]; intros toolResults st;
    cbn [executeToolUses].
  - split; [done|]. split; [done|]. apply extends_refl.
  - cbv zeta. tool_call_cases IH.
    + destruct IHrest as (Hc & Hl & [a Ha]). cbn [snd] in *.
      split; [by rewrite Hc|]. split; [by rewrite Hl|].
      eexists. rewrite Ha. cbn [enqueue set_request set_heap trace].
      by rewrite <- !app_assoc.
    + destruct IHrest as (Hc & Hl & [a Ha]). cbn [snd] in *.
      split; [by rewrite Hc|]. split; [by rewrite Hl|].
      eexists. rewrite Ha. cbn [enqueue set_request set_heap trace].
      by rewrite <- !app_assoc.
    + split; [done|]. split; [done|]. by eexists.
Qed.

(** When the results can be serialized the loop over the tool calls runs
    to its end. *)
Lemma executeToolUses_returns uses : forall toolResults st,
  serializable_results impl ->
  exists results,
    fst (executeToolUses impl uses toolResults st) = Returned results.
Proof.
  induction uses as [|[[id toolName] input] uses IH]; intros toolResults st Hser;
    cbn [executeToolUses].
  - by eexists.
  - cbv zeta.
    pose proof (executeToolCall_serializable impl toolName input
                  (currentRequest
                     (enqueue [EvToolCall id toolName (default [] (heap st !! input)) false] st))
                  (heap
                     (enqueue [EvToolCall id toolName (default [] (heap st !! input)) false] st))
                  Hser) as Hone.
    destruct (executeToolCall _ _ _ _ _) as [executionResult [h' request']].
    cbn [fst] in Hone. unfold serializable in Hone.
    destruct (stringify (result_value executionResult)) as [text|e]; [|done].
    destruct (success executionResult); apply IH, Hser.
Qed.

(** A round whose turn requests tools goes on to the next round. *)
Lemma iteration_requests_tools st :
  serializable_results impl ->
  (forall msgs, requests_tools (client (S (iterationCount st)) msgs) = true) ->
  exists st',
    iteration impl client st = Running st'
    /\ iterationCount st' = S (iterationCount st)
    /\ continueLoop st' = continueLoop st
    /\ extends st st'.
Proof.
  intros Hser Hturn. unfold iteration.
  set (st0 := count_iteration st).
  set (turn := client (iterationCount st0) _).
  specialize (Hturn (List.map (resolve (heap st0)) (conversationMessages st0))).
  fold st0 in Hturn. change (S (iterationCount st)) with (iterationCount st0) in Hturn.
  fold turn in Hturn. unfold requests_tools in Hturn.
  apply andb_true_iff in Hturn as [Hcbs Hfinal].
  pose proof (callbacks_spec (callbacks turn) (false, None) st0) as (Hc & He & Hl).
  destruct (fold_left on_callback (callbacks turn) (false, None, st0))
    as [th st1] eqn:Hfold.
  simpl in Hc, He, Hl. specialize (Hl Hcbs).
  destruct (finalMessage turn) as [final|e]; [|done].
  pose proof (allocate_tool_uses (content final) (heap st1)) as Halloc.
  destruct (allocate (heap st1) (content final)) as [blocks h] eqn:Ha.
  simpl in Halloc.
  destruct (toolUseBlocks blocks) as [|u uses] eqn:Hu; [congruence|].
  pose proof (executeToolUses_spec (u :: uses) []
                (push (Appended assistant (Blocks blocks)) (set_heap h st1)))
    as (Hc' & Hl' & He').
  destruct (executeToolUses_returns (u :: uses) []
              (push (Appended assistant (Blocks blocks)) (set_heap h st1)) Hser)
    as [toolResults Hres].
  destruct (executeToolUses impl (u :: uses) [] _) as [out st2].
  simpl in Hc', Hl', He', Hres. subst out.
  eexists. split; [reflexivity|]. simpl.
  split; [congruence|]. split; [congruence|].
  destruct He as [a Ha1], He' as [b Hb]. exists (a ++ b).
  simpl in *. by rewrite Hb, Ha1, app_assoc.
Qed.

(** A round whose turn is a final answer stops the loop with the
    [done] event of that answer. *)
Lemma iteration_final_answer st :
  (forall msgs, final_answer (client (S (iterationCount st)) msgs) = true) ->
  exists st' msgs final,
    iteration impl client st = Running st'
    /\ iterationCount st' = S (iterationCount st)
    /\ continueLoop st' = false
    /\ finalMessage (client (S (iterationCount st)) msgs) = Returned final
    /\ exists actions,
         trace st'
         = trace st ++ actions
           ++ [Enqueue (EvDone (Some (stop_reason final, input_tokens final,
                                      output_tokens final)))].
Proof.
  intros Hturn. unfold iteration.
  set (st0 := count_iteration st).
  set (msgs := List.map (resolve (heap st0)) (conversationMessages st0)).
  set (turn := client (iterationCount st0) msgs).
  specialize (Hturn msgs).
  change (S (iterationCount st)) with (iterationCount st0) in *.
  fold turn in Hturn. unfold final_answer in Hturn.
  pose proof (callbacks_spec (callbacks turn) (false, None) st0) as (Hc & He & _).
  destruct (fold_left on_callback (callbacks turn) (false, None, st0))
    as [th st1] eqn:Hfold.
  simpl in Hc, He.
  destruct (finalMessage turn) as [final|e] eqn:Hfm; [|done].
  pose proof (allocate_tool_uses (content final) (heap st1)) as Halloc.
  destruct (allocate (heap st1) (content final)) as [blocks h] eqn:Ha.
  simpl in Halloc.
  destruct (toolUseBlocks blocks) as [|u uses] eqn:Hu.
  - eexists _, msgs, final. split; [reflexivity|]. simpl.
    split; [done|]. split; [done|]. split; [exact Hfm|].
    destruct He as [a Ha1]. exists a. simpl in Ha1.
    by rewrite Ha1, app_assoc.
  - rewrite Halloc in Hturn. done.
Qed.

End Loop.

Definition cap_error : StreamEvent :=
  EvError "Max tool execution iterations reached"
    "The conversation has reached the maximum number of tool executions.".

Section Cap.

Variable impl : ToolImplementations.
Variable client : nat -> list WireMessage -> ProviderTurn.
Variable request : LocalAgentRequest.



(** Up to the last allowed round, which is a final answer. *)
Lemma toolLoop_last_round k : forall fuel st,
  serializable_results impl ->
  (forall n msgs, n < maxIterations -> requests_tools (client n msgs) = true) ->
  (forall msgs, final_answer (client maxIterations msgs) = true) ->
  continueLoop st = true ->
  iterationCount st + S k = maxIterations ->
  S k <= fuel ->
  exists st' msgs final actions,
    toolLoop impl client fuel st = Ok (Running st')
    /\ iterationCount st' = maxIterations
    /\ finalMessage (client maxIterations msgs) = Returned final
    /\ trace st'
       = trace st ++ actions
         ++ [Enqueue (EvDone (Some (stop_reason final, input_tokens final,
                                    output_tokens final)))].
Proof.
  induction k as [|k IH]; intros fuel st Hser Hturns Hlast Hcont Hcount Hfuel;
    (destruct fuel as [|fuel]; [lia|]); simpl; rewrite Hcont;
    (destruct (Nat.ltb_spec (iterationCount st) maxIterations); [|lia]); simpl.
  - assert (Hn : S (iterationCount st) = maxIterations) by lia.
    destruct (iteration_final_answer impl client st)
      as (st1 & msgs & final & Hit & Hc1 & Hl1 & Hfm & actions & Htr).
    { intros msgs. rewrite Hn. apply Hlast. }
    rewrite Hit, Hn in *.
    exists st1, msgs, final, actions. split; [|done].
    destruct fuel; simpl; by rewrite Hl1.
  - destruct (iteration_requests_tools impl client st)
      as (st1 & Hit & Hc1 & Hl1 & [a Ha]); [done| |].
    { intros msgs. apply Hturns. lia. }
    rewrite Hit.
    destruct (IH fuel st1) as (st' & msgs & final & b & Hloop & Hc' & Hfm & Htr);
      try done; try lia.
    { congruence. }
    exists st', msgs, final, (a ++ b). split; [done|]. split; [done|].
    split; [done|]. by rewrite Htr, Ha, <- !app_assoc.
Qed.

(** C9. When the turns before the tenth request tools, with results that
    can be serialized, and the tenth is a final answer, the stream ends
    with the [done] event of that answer (stop reason and usage), then the
    error event of the cap, then a second [done] event, then its close. *)
Theorem final_answer_on_last_round fuel model systemPrompt :
  serializable_results impl ->
  (forall n msgs, n < maxIterations -> requests_tools (client n msgs) = true) ->
  (forall msgs, final_answer (client maxIterations msgs) = true) ->
  maxIterations <= fuel ->
  exists st msgs final actions,
    start impl client fuel request model systemPrompt = Ok st
    /\ iterationCount st = maxIterations
    /\ finalMessage (client maxIterations msgs) = Returned final
    /\ trace st
       = actions
         ++ [Enqueue (EvDone (Some (stop_reason final, input_tokens final,
                                    output_tokens final)));
             Enqueue cap_error; Enqueue (EvDone None); Close].
Proof.
  intros Hser Hturns Hlast Hfuel. unfold start.
  match goal with
  | |- context [toolLoop _ _ _ ?s] => set (st0 := s)
  end.
  destruct (toolLoop_last_round (pred maxIterations) fuel st0)
    as (st' & msgs & final & actions & Hloop & Hcount & Hfm & Htr);
    try done.
  rewrite Hloop. cbn [bind]. rewrite Hcount. cbn [Nat.leb maxIterations].
  eexists _, msgs, final, (trace st0 ++ actions). split; [reflexivity|].
  split; [done|]. split; [done|]. cbn [close enqueue trace List.map].
  rewrite Htr. by rewrite <- !app_assoc.
Qed.

End Cap.

Section Bound.

Variable impl : ToolImplementations.
Variable client : nat -> list WireMessage -> ProviderTurn.

Lemma iteration_count st :
  iterationCount
    match iteration impl client st with Running st' | Raised st' _ => st' end
  = S (iterationCount st).
Proof.
  unfold iteration.
  set (st0 := count_iteration st).
  set (turn := client (iterationCount st0) _).
  pose proof (callbacks_spec (callbacks turn) (false, None) st0) as (Hc & _ & _).
  destruct (fold_left on_callback (callbacks turn) (false, None, st0))
    as [th st1].
  simpl in Hc.
  destruct (finalMessage turn) as [final|e]; [|done].
  destruct (allocate (heap st1) (content final)) as [blocks h].
  destruct (toolUseBlocks blocks) as [|u uses]; [done|].
  pose proof (executeToolUses_spec impl (u :: uses) []
                (push (Appended assistant (Blocks blocks)) (set_heap h st1)))
    as (Hc' & _ & _).
  destruct (executeToolUses impl (u :: uses) [] _) as [[toolResults|e] st2];
    simpl in *; congruence.
Qed.

(** Whatever the provider does, a round that goes on has counted one. *)
Lemma iteration_counts st st' :
  iteration impl client st = Running st' ->
  iterationCount st' = S (iterationCount st).
Proof.
  intros H. pose proof (iteration_count st) as Hc. by rewrite H in Hc.
Qed.

(** For every provider the loop returns within the rounds left to the
    cap, and never counts beyond it. *)
Lemma toolLoop_returns k : forall fuel st,
  maxIterations <= iterationCount st + k ->
  k <= fuel ->
  iterationCount st <= maxIterations ->
  exists flow,
    toolLoop impl client fuel st = Ok flow
    /\ match flow with
       | Running st' => iterationCount st' <= maxIterations
       | Raised _ _ => True
       end.
Proof.
  induction k as [|k IH]; intros fuel st Hk Hfuel Hle.
  - exists (Running st). split; [|done].
    destruct fuel; simpl;
      (destruct (Nat.ltb_spec (iterationCount st) maxIterations); [lia|]);
      by rewrite andb_false_r.
  - destruct fuel as [|fuel]; [lia|]. simpl.
    destruct (continueLoop st && (iterationCount st <? maxIterations)%nat)
      eqn:Hcond; [|by exists (Running st)].
    apply andb_true_iff in Hcond as [_ Hlt%Nat.ltb_lt].
    destruct (iteration impl client st) as [st'|st' e] eqn:Hit.
    + apply iteration_counts in Hit. apply IH; lia.
    + by exists (Raised st' e).
Qed.

End Bound.

(** A provider that always asks for the tool [search]; one that does so
    on its first nine turns and then answers. *)
Definition search_request : FinalMessage :=
  {| content := [WText "Let me look."; WToolUse "call" "search" [("query", JStr "x")]];
     stop_reason := Some "tool_use";
     input_tokens := 10;
     output_tokens := 5 |}.

Definition answer : FinalMessage :=
  {| content := [WText "Here it is."];
     stop_reason := Some "end_turn";
     input_tokens := 12;
     output_tokens := 7 |}.

Definition greedy_client (n : nat) (msgs : list WireMessage) : ProviderTurn :=
  {| callbacks := [OnText false "Let me look." 0]; finalMessage := Returned search_request |}.

Definition patient_client (n : nat) (msgs : list WireMessage) : ProviderTurn :=
  if (n <? maxIterations)%nat then greedy_client n msgs
  else {| callbacks := [OnText false "Here it is." 0]; finalMessage := Returned answer |}.

Definition idle_tools : ToolImplementations :=
  {| evalCode := fun _ scope => (Returned None, scope);
     editWorkflowServerTool := fun _ _ => Returned None;
     getWorkflowConsoleServerTool := fun _ => Returned None;
     getBlocksMetadataServerTool := fun _ => Returned None;
     getBlocksAndToolsServerTool := fun _ => Returned None;
     executeTool := fun _ _ _ =>
       Returned {| response_success := true;
                   response_output := Some (JsonValue (JStr "found"));
                   response_error := None |} |}.

Lemma idle_tools_serializable : serializable_results idle_tools.
Proof. intros inv scope. by destruct inv. Qed.





Lemma final_answer_on_last_round_witness :
  exists st msgs final actions,
    start idle_tools patient_client maxIterations (sample_request []) "model" "prompt"
    = Ok st
    /\ iterationCount st = maxIterations
    /\ finalMessage (patient_client maxIterations msgs) = Returned final
    /\ trace st
       = actions
         ++ [Enqueue (EvDone (Some (stop_reason final, input_tokens final,
                                    output_tokens final)));
             Enqueue cap_error; Enqueue (EvDone None); Close].
Proof.
  apply final_answer_on_last_round.
  - intros inv scope. destruct inv; reflexivity.
  - intros n msgs Hn. unfold patient_client.
    destruct (Nat.ltb_spec n maxIterations); [reflexivity|lia].
  - intros msgs. reflexivity.
  - lia.
Defined.

(** ** The conversation as a log *)

(** The list of messages itself only grows at its end. *)
Lemma callbacks_messages cbs : forall th st,
  conversationMessages (snd (fold_left on_callback cbs (th, st)))
  = conversationMessages st.
Proof.
  induction cbs as [|cb cbs IH]; intros th st; cbn [fold_left]; [done|].
  destruct (on_callback (th, st) cb) as [th1 st1] eqn:Hcb.
  rewrite IH. destruct th as [inThinking startTime], cb as [thinking text now|e];
    simpl in Hcb.
  - destruct thinking, inThinking; by inversion Hcb.
  - by inversion Hcb.
Qed.

Lemma executeToolUses_messages impl uses : forall toolResults st,
  conversationMessages (snd (executeToolUses impl uses toolResults st))
  = conversationMessages st.
Proof.
  induction uses as [|[[id toolName] input] uses IH]; intros toolResults st;
    cbn [executeToolUses]; [done|].
  cbv zeta. tool_call_cases IH; cbn [snd] in *; try done; by rewrite IHrest.
Qed.

Lemma iteration_appends impl client st :
  exists more,
    conversationMessages
      match iteration impl client st with
      | Running st' => st'
      | Raised st' _ => st'
      end
    = conversationMessages st ++ more.
Proof.
  unfold iteration.
  set (st0 := count_iteration st).
  set (turn := client (iterationCount st0) _).
  pose proof (callbacks_messages (callbacks turn) (false, None) st0) as Hm.
  destruct (fold_left on_callback (callbacks turn) (false, None, st0))
    as [th st1].
  simpl in Hm.
  destruct (finalMessage turn) as [final|e].
  2: { exists []. by rewrite app_nil_r. }
  destruct (allocate (heap st1) (content final)) as [blocks h].
  destruct (toolUseBlocks blocks) as [|u uses].
  - exists []. simpl. by rewrite app_nil_r.
  - pose proof (executeToolUses_messages impl (u :: uses) []
                  (push (Appended assistant (Blocks blocks)) (set_heap h st1)))
      as Hm'.
    destruct (executeToolUses impl (u :: uses) [] _) as [[toolResults|e] st2];
      simpl in Hm'; eexists; simpl; rewrite Hm', Hm;
      [rewrite <- app_assoc|]; reflexivity.
Qed.

(** The execution of a registry tool writes [credential] and [_context]
    into the object of the heap that the appended assistant turn refers
    to. *)
Lemma executeToolCall_writes_input impl toolName loc toolInput request heap :
  includes toolName privileged_tools = false ->
  heap !! loc = Some toolInput ->
  fst (snd (executeToolCall impl toolName loc request heap)) !! loc
  = Some (obj_set "_context" (context_of request)
            match oauthProviders request with
            | first :: _ => obj_set "credential" (JStr first) toolInput
            | [] => toolInput
            end).
Proof.
  intros Hnp Hloc. unfold executeToolCall. rewrite Hloc.
  rewrite prepareToolCall_registry by done. cbv zeta.
  assert (Hlt : loc < length heap) by (by eapply lookup_lt_Some).
  match goal with
  | |- context [default toolInput ?x] =>
      replace x with (Some (obj_set "_context" (context_of request)
                              match oauthProviders request with
                              | first :: _ => obj_set "credential" (JStr first) toolInput
                              | [] => toolInput
                              end))
  end.
  2: { symmetry. by apply list_lookup_insert_eq. }
  cbn [invoke default option_map from_option fst snd scope_toolInput].
  apply list_lookup_insert_eq.
  match goal with |- _ < length ?l => replace (length l) with (length heap) end;
    [done|].
  symmetry. apply length_insert.
Qed.

(** A provider that asks for the tool [search] once and then answers. *)
Definition curious_client (n : nat) (msgs : list WireMessage) : ProviderTurn :=
  if (n <? 2)%nat then greedy_client n msgs
  else {| callbacks := []; finalMessage := Returned answer |}.

(** C4 on the code. The assistant turn reads as the provider sent it when
    it is appended; once its tool call has been executed the same turn of
    the conversation carries [credential] and [_context] in the input of
    the call. *)
Theorem appended_turn_is_modified :
  let request := sample_request ["google"] in
  let appended := allocate [] (content search_request) in
  resolve (snd appended) (Appended assistant (Blocks (fst appended)))
  = Appended assistant (Blocks (content search_request))
  /\ exists st,
       start idle_tools curious_client maxIterations request "model" "prompt"
       = Ok st
       /\ List.map (resolve (heap st)) (conversationMessages st) !! 1
          = Some (Appended assistant
                    (Blocks
                         [ WText "Let me look.";
                           WToolUse "call" "search"
                             [ ("query", JStr "x");
                               ("credential", JStr "google");
                               ("_context",
                                JObj [("workflowId", JStr "wf-1");
                                      ("userId", JStr "user-1")]) ] ])).
Proof.
  split; [reflexivity|]. eexists. split; [vm_compute; reflexivity|].
  vm_compute. reflexivity.
Qed.

(** ** The schema normalizer *)

Lemma mapM_ext_in {A B} (f g : A -> result B) l :
  (forall x, In x l -> f x = g x) -> mapM f l = mapM g l.
Proof.
  induction l as [|x l IH]; simpl; intros H; [done|].
  rewrite (H x) by auto. destruct (g x); simpl; try done.
  rewrite IH by auto. done.
Qed.

Lemma mapM_total {A B} (f : A -> result B) l :
  (forall x, In x l -> f x <> OutOfFuel) -> mapM f l <> OutOfFuel.
Proof.
  induction l as [|x l IH]; simpl; intros H; [done|].
  specialize (H x (or_introl eq_refl)) as Hx.
  destruct (f x); simpl; try done.
  assert (Hl : mapM f l <> OutOfFuel) by auto.
  by destruct (mapM f l).
Qed.

(** Mapping again over the results gives them back when [f] is stable on
    each of them. *)
Lemma mapM_stable {A} (f : A -> result A) l l' :
  mapM f l = Ok l' ->
  (forall x y, In x l -> f x = Ok y -> f y = Ok y) ->
  mapM f l' = Ok l'.
Proof.
  revert l'. induction l as [|x l IH]; simpl; intros l' Hmap Hst.
  - by inversion Hmap.
  - destruct (f x) as [y| |] eqn:Hfx; simpl in Hmap; try done.
    destruct (mapM f l) as [ys| |] eqn:Hl; simpl in Hmap; try done.
    inversion Hmap; subst l'. simpl.
    rewrite (Hst x y) by auto. simpl.
    rewrite (IH ys) by (try done; intros; eapply Hst; eauto). done.
Qed.

(** [c'] is [c] with at most the key [k] assigned or deleted. *)
Inductive upd_at (k : string) (c : JsObject) : JsObject -> Prop :=
| upd_same : upd_at k c c
| upd_set v : upd_at k c (obj_set k v c)
| upd_delete : upd_at k c (obj_delete k c)
| upd_set_delete v : upd_at k c (obj_delete k (obj_set k v c)).

Lemma upd_at_get k c c' k' :
  upd_at k c c' -> k' <> k -> obj_get k' c' = obj_get k' c.
Proof.
  intros Hupd Hne.
  assert (String.eqb k' k = false) as Hf by by apply String.eqb_neq.
  assert (String.eqb k k' = false) as Hf' by (apply String.eqb_neq; congruence).
  destruct Hupd; rewrite ?obj_get_delete, ?obj_get_set, ?Hf, ?Hf'; done.
Qed.

Lemma upd_at_keys P k c c' :
  upd_at k c c' -> P k = true -> keys_all P c -> keys_all P c'.
Proof.
  intros Hupd Hk Hc.
  destruct Hupd; unfold obj_delete;
    auto using keys_all_filter, keys_all_set.
Qed.

(** Every part of a value in [P] is in [P]. *)
Definition hereditary (P : Json -> Prop) : Prop :=
  forall v k w, P v -> In (k, w) (own_entries v) -> P w.

Lemma array_entries_of v l : forall i,
  In v l -> exists k, In (k, v) (array_entries i l).
Proof.
  induction l as [|x l IH]; simpl; intros i; [done|].
  intros [->|Hin]; [eauto|].
  destruct (IH (S i) Hin) as [k Hk]. eauto.
Qed.

Lemma hereditary_array P l v : hereditary P -> P (JArr l) -> In v l -> P v.
Proof.
  intros HP Hl Hin. destruct (array_entries_of v l 0 Hin) as [k Hk].
  exact (HP (JArr l) k v Hl Hk).
Qed.

Lemma hereditary_depth d : hereditary (fun v => depth v < d).
Proof.
  intros v k w Hv Hin. apply depth_in_entries in Hin. lia.
Qed.

Section NormalizerFacts.

Variable regexp_valid : string -> bool.

(** The steps of [cleanBody] after the preparation of [cleaned], each
    with the key it works on. *)
Record Step : Type := {
  step_key : string;
  step_run : (Json -> result Json) -> JsObject -> result JsObject;
}.

Definition steps : list Step :=
  [ {| step_key := "properties"; step_run := clean_properties |};
    {| step_key := "items";
       step_run := fun rec c => clean_items rec (drop_items_unless_array c) |};
    {| step_key := "required"; step_run := fun _ c => Ok (clean_required c) |};
    {| step_key := "anyOf"; step_run := fun rec => clean_combinator rec "anyOf" |};
    {| step_key := "oneOf"; step_run := fun rec => clean_combinator rec "oneOf" |};
    {| step_key := "allOf"; step_run := fun rec => clean_combinator rec "allOf" |};
    {| step_key := "not"; step_run := clean_not |};
    {| step_key := "pattern";
       step_run := fun _ c => Ok (fix_pattern regexp_valid c) |} ].

Fixpoint run_steps (rec : Json -> result Json) (ss : list Step)
    (c : JsObject) : result JsObject :=
  match ss with
  | [] => Ok c
  | s :: ss' => let* c' := step_run s rec c in run_steps rec ss' c'
  end.

(** [cleaned] before the first recursive call. *)
Definition prepared (schema : Json) : JsObject :=
  drop_nullable
    (normalize_type
       (obj_filter_keys (fun key => includes key allowedTopLevelProps)
          (obj_delete "$schema" (own_entries schema)))).

Lemma cleanBody_steps rec schema :
  cleanBody regexp_valid rec schema
  = if negb (truthy schema) || negb (typeof_object schema) then Ok schema
    else let* c := run_steps rec steps (prepared schema) in
         let* c := final_pass c in
         Ok (JObj c).
Proof.
  unfold cleanBody. destruct (negb (truthy schema) || _); [done|].
  cbv zeta. fold (prepared schema). cbn [run_steps steps step_run].
  destruct (clean_properties rec (prepared schema)) as [c1| |];
    cbn [bind]; try done.
  destruct (clean_items rec _) as [c2| |]; cbn [bind]; try done.
  destruct (clean_combinator rec "anyOf" _) as [c3| |]; cbn [bind]; try done.
  destruct (clean_combinator rec "oneOf" _) as [c4| |]; cbn [bind]; try done.
  destruct (clean_combinator rec "allOf" _) as [c5| |]; cbn [bind]; try done.
  destruct (clean_not rec _) as [c6| |]; cbn [bind]; done.
Qed.

Lemma steps_keys :
  List.map step_key steps
  = ["properties"; "items"; "required"; "anyOf"; "oneOf"; "allOf"; "not";
     "pattern"].
Proof. reflexivity. Qed.

(** *** Each step touches its key only *)

Lemma clean_properties_upd rec c c' :
  clean_properties rec c = Ok c' -> upd_at "properties" c c'.
Proof.
  unfold clean_properties. intros H.
  repeat case_match; try (apply bind_Ok in H as (e & _ & H));
    simplify_eq; constructor.
Qed.

Lemma drop_items_upd c : upd_at "items" c (drop_items_unless_array c).
Proof. unfold drop_items_unless_array. repeat case_match; constructor. Qed.

Lemma drop_items_get c :
  obj_get "items" (drop_items_unless_array c) = None
  \/ drop_items_unless_array c = c.
Proof.
  unfold drop_items_unless_array. repeat case_match; auto.
  all: left; by rewrite obj_get_delete.
Qed.

Lemma clean_items_upd rec c c' :
  clean_items rec c = Ok c' -> upd_at "items" c c'.
Proof.
  unfold clean_items. intros H.
  repeat case_match; try (apply bind_Ok in H as (e & _ & H));
    simplify_eq; constructor.
Qed.

Lemma items_step_upd rec c c' :
  clean_items rec (drop_items_unless_array c) = Ok c' -> upd_at "items" c c'.
Proof.
  intros H. destruct (drop_items_get c) as [Hnone|Heq].
  - unfold clean_items in H. rewrite Hnone in H. simplify_eq.
    apply drop_items_upd.
  - rewrite Heq in H. by apply clean_items_upd in H.
Qed.

Lemma clean_required_upd c : upd_at "required" c (clean_required c).
Proof. unfold clean_required. repeat case_match; constructor. Qed.

Lemma clean_combinator_upd rec key c c' :
  clean_combinator rec key c = Ok c' -> upd_at key c c'.
Proof.
  unfold clean_combinator. intros H.
  repeat case_match; try (apply bind_Ok in H as (e & _ & H));
    simplify_eq; constructor.
Qed.

Lemma clean_not_upd rec c c' : clean_not rec c = Ok c' -> upd_at "not" c c'.
Proof.
  unfold clean_not. intros H.
  repeat case_match; try (apply bind_Ok in H as (e & _ & H));
    simplify_eq; constructor.
Qed.

Lemma fix_pattern_upd c : upd_at "pattern" c (fix_pattern regexp_valid c).
Proof. unfold fix_pattern. repeat case_match; constructor. Qed.

Lemma steps_upd s rec c c' :
  In s steps -> step_run s rec c = Ok c' -> upd_at (step_key s) c c'.
Proof.
  unfold steps. simpl.
  intros [<-|[<-|[<-|[<-|[<-|[<-|[<-|[<-|[]]]]]]]]]; simpl; intros H.
  - by eapply clean_properties_upd.
  - by eapply items_step_upd.
  - inversion H. apply clean_required_upd.
  - by eapply clean_combinator_upd.
  - by eapply clean_combinator_upd.
  - by eapply clean_combinator_upd.
  - by eapply clean_not_upd.
  - inversion H. apply fix_pattern_upd.
Qed.

Lemma steps_key_not_type s : In s steps -> step_key s <> "type".
Proof.
  intros Hin. apply (in_map step_key) in Hin. rewrite steps_keys in Hin.
  simpl in Hin. intuition congruence.
Qed.

Lemma steps_key_allowed s :
  In s steps -> includes (step_key s) allowedTopLevelProps = true.
Proof.
  unfold steps. simpl. intuition (subst; reflexivity).
Qed.

(** *** The recursive calls are on parts of the schema *)

Section Ext.

Variables rec1 rec2 : Json -> result Json.
Variable P : Json -> Prop.
Hypothesis P_hereditary : hereditary P.
Hypothesis rec_agree : forall v, P v -> rec1 v = rec2 v.

Lemma clean_entries_ext p :
  P p ->
  mapM (clean_entry rec1) (own_entries p)
  = mapM (clean_entry rec2) (own_entries p).
Proof.
  intros Hp. apply mapM_ext_in. intros [k w] Hin.
  unfold clean_entry. simpl. rewrite rec_agree; [done|].
  eapply P_hereditary; eauto.
Qed.

Lemma mapM_rec_ext l : P (JArr l) -> mapM rec1 l = mapM rec2 l.
Proof.
  intros Hl. apply mapM_ext_in. intros w Hin.
  apply rec_agree. eapply hereditary_array; eauto.
Qed.

Lemma steps_ext s c :
  In s steps ->
  (forall v, obj_get (step_key s) c = Some v -> P v) ->
  step_run s rec1 c = step_run s rec2 c.
Proof.
  unfold steps. simpl.
  intros [<-|[<-|[<-|[<-|[<-|[<-|[<-|[<-|[]]]]]]]]]; simpl; intros Hc;
    try reflexivity.
  - unfold clean_properties. destruct (obj_get "properties" c) as [p|]; [|done].
    destruct (truthy p && typeof_object p); [|done].
    by rewrite clean_entries_ext by auto.
  - destruct (drop_items_get c) as [Hnone|Heq].
    + unfold clean_items. by rewrite Hnone.
    + rewrite Heq. unfold clean_items.
      destruct (obj_get "items" c) as [i|]; [|done].
      destruct (truthy i); [|done].
      destruct i; rewrite ?rec_agree by auto; try done.
      by rewrite mapM_rec_ext by auto.
  - unfold clean_combinator. destruct (obj_get "anyOf" c) as [[]|]; try done.
    by rewrite mapM_rec_ext by auto.
  - unfold clean_combinator. destruct (obj_get "oneOf" c) as [[]|]; try done.
    by rewrite mapM_rec_ext by auto.
  - unfold clean_combinator. destruct (obj_get "allOf" c) as [[]|]; try done.
    by rewrite mapM_rec_ext by auto.
  - unfold clean_not. destruct (obj_get "not" c) as [n|]; [|done].
    destruct (truthy n); [|done]. by rewrite rec_agree by auto.
Qed.

Lemma run_steps_ext ss : forall c,
  incl ss steps ->
  NoDup (List.map step_key ss) ->
  (forall s v, In s ss -> obj_get (step_key s) c = Some v -> P v) ->
  run_steps rec1 ss c = run_steps rec2 ss c.
Proof.
  induction ss as [|s ss IH]; intros c Hincl Hnd Hc; simpl; [done|].
  assert (Hs : In s steps) by (apply Hincl; by left).
  rewrite (steps_ext s c Hs) by (intros; eapply Hc; eauto; by left).
  destruct (step_run s rec2 c) as [c'| |] eqn:Hrun; simpl; try done.
  apply IH.
  - intros s' Hs'. apply Hincl. by right.
  - by inversion Hnd.
  - intros s' v Hs' Hget. apply (Hc s' v); [by right|].
    rewrite <- Hget. symmetry.
    eapply upd_at_get; [eapply steps_upd; eauto|].
    simpl in Hnd. apply NoDup_cons in Hnd as [Hnotin _].
    intros Heq. apply Hnotin, list_elem_of_In. rewrite <- Heq.
    by apply in_map.
Qed.

End Ext.

Lemma normalize_type_get k c :
  k <> "type" -> obj_get k (normalize_type c) = obj_get k c.
Proof.
  intros Hne. assert (Hf : String.eqb "type" k = false).
  { apply String.eqb_neq. congruence. }
  unfold normalize_type. repeat case_match; rewrite ?obj_get_set, ?Hf; done.
Qed.

Lemma drop_nullable_get k c :
  obj_get k (drop_nullable c)
  = if String.eqb k "nullable" then None else obj_get k c.
Proof.
  unfold drop_nullable, obj_has.
  destruct (obj_get "nullable" c) eqn:Hn.
  - apply obj_get_delete.
  - destruct (String.eqb_spec k "nullable") as [->|]; done.
Qed.

(** Apart from [type], the values of [prepared schema] are values of the
    schema. *)
Lemma prepared_get k v schema :
  k <> "type" ->
  obj_get k (prepared schema) = Some v ->
  obj_get k (own_entries schema) = Some v.
Proof.
  intros Hne. unfold prepared.
  rewrite drop_nullable_get, normalize_type_get, obj_get_filter_keys,
    obj_get_delete by done.
  by repeat case_match.
Qed.

Lemma prepared_parts (P : Json -> Prop) schema s v :
  hereditary P -> P schema -> In s steps ->
  obj_get (step_key s) (prepared schema) = Some v -> P v.
Proof.
  intros HP Hschema Hs Hget.
  apply prepared_get in Hget; [|by apply steps_key_not_type].
  apply obj_get_key_in in Hget. eapply HP; eauto.
Qed.

Lemma NoDup_steps_keys : NoDup (List.map step_key steps).
Proof.
  rewrite steps_keys. apply NoDup_ListNoDup.
  repeat (apply List.NoDup_cons; [simpl; intuition discriminate|]).
  apply List.NoDup_nil.
Qed.

Lemma cleanBody_ext rec1 rec2 schema :
  (forall v, depth v < depth schema -> rec1 v = rec2 v) ->
  cleanBody regexp_valid rec1 schema = cleanBody regexp_valid rec2 schema.
Proof.
  intros Hagree. rewrite !cleanBody_steps.
  destruct (negb (truthy schema) || _); [done|].
  rewrite (run_steps_ext rec1 rec2 (fun v => depth v < depth schema));
    auto using hereditary_depth, incl_refl, NoDup_steps_keys.
  intros s v Hs Hget.
  apply prepared_get in Hget; [|by apply steps_key_not_type].
  eapply depth_in_entries, obj_get_key_in, Hget.
Qed.

Lemma cleanJsonSchema_fuel_enough fuel1 : forall fuel2 schema,
  depth schema < fuel1 -> depth schema < fuel2 ->
  cleanJsonSchema_fuel regexp_valid fuel1 schema
  = cleanJsonSchema_fuel regexp_valid fuel2 schema.
Proof.
  induction fuel1 as [|fuel1 IH]; intros fuel2 schema H1 H2; [lia|].
  destruct fuel2 as [|fuel2]; [lia|]. simpl.
  apply cleanBody_ext. intros v Hv. apply IH; lia.
Qed.

(** [cleanJsonSchema] is its body applied to itself. *)
Lemma cleanJsonSchema_unfold schema :
  cleanJsonSchema regexp_valid schema
  = cleanBody regexp_valid (cleanJsonSchema regexp_valid) schema.
Proof.
  unfold cleanJsonSchema at 1. simpl.
  apply cleanBody_ext. intros v Hv.
  apply cleanJsonSchema_fuel_enough; lia.
Qed.

(** *** The normalizer returns or throws *)

Lemma bind_total {A B} (r : result A) (f : A -> result B) :
  r <> OutOfFuel -> (forall a, f a <> OutOfFuel) -> bind r f <> OutOfFuel.
Proof. destruct r; simpl; auto. Qed.

Lemma steps_total s rec c :
  In s steps -> (forall v, rec v <> OutOfFuel) ->
  step_run s rec c <> OutOfFuel.
Proof.
  intros Hs Hrec.
  assert (Hmap : forall l, mapM rec l <> OutOfFuel)
    by (intros; by apply mapM_total).
  assert (Hentries : forall l, mapM (clean_entry rec) l <> OutOfFuel).
  { intros l. apply mapM_total. intros [k w] _. unfold clean_entry.
    by apply bind_total. }
  revert Hs. unfold steps. simpl.
  intros [<-|[<-|[<-|[<-|[<-|[<-|[<-|[<-|[]]]]]]]]]; simpl; try done;
    unfold clean_properties, clean_items, clean_combinator, clean_not;
    repeat case_match; try done; by apply bind_total.
Qed.

Lemma run_steps_total rec ss : forall c,
  incl ss steps -> (forall v, rec v <> OutOfFuel) ->
  run_steps rec ss c <> OutOfFuel.
Proof.
  induction ss as [|s ss IH]; intros c Hincl Hrec; simpl; [done|].
  pose proof (steps_total s rec c (Hincl s (or_introl eq_refl)) Hrec) as Hs.
  destruct (step_run s rec c) as [c'| |]; simpl; try done.
  apply IH; [|done]. intros s' Hs'. apply Hincl. by right.
Qed.

Lemma cleanBody_total rec schema :
  (forall v, rec v <> OutOfFuel) ->
  cleanBody regexp_valid rec schema <> OutOfFuel.
Proof.
  intros Hrec. rewrite cleanBody_steps.
  destruct (negb (truthy schema) || _); [done|].
  pose proof (run_steps_total rec steps (prepared schema) (incl_refl _) Hrec).
  destruct (run_steps rec steps (prepared schema)) as [c| |]; simpl; try done.
  unfold final_pass. by destruct (existsb _ c).
Qed.

(** The recursion bound of the model is never reached. *)
Lemma cleanJsonSchema_total schema :
  cleanJsonSchema regexp_valid schema <> OutOfFuel.
Proof.
  remember (depth schema) as n eqn:Hn. revert schema Hn.
  induction n as [n IH] using lt_wf_ind. intros schema ->.
  rewrite cleanJsonSchema_unfold.
  rewrite (cleanBody_ext _
             (fun v => match cleanJsonSchema regexp_valid v with
                       | OutOfFuel => TypeError
                       | r => r
                       end)).
  - apply cleanBody_total. intros v.
    by destruct (cleanJsonSchema regexp_valid v).
  - intros v Hv. specialize (IH (depth v) Hv v eq_refl).
    by destruct (cleanJsonSchema regexp_valid v).
Qed.

(** A schema that is not an object or an array is returned as it is;
    the others give an object. *)
Lemma cleanJsonSchema_shape schema cleaned :
  cleanJsonSchema regexp_valid schema = Ok cleaned ->
  (cleaned = schema /\ truthy schema && typeof_object schema = false)
  \/ (exists o, cleaned = JObj o /\ truthy schema && typeof_object schema = true).
Proof.
  rewrite cleanJsonSchema_unfold, cleanBody_steps.
  destruct (truthy schema), (typeof_object schema); simpl; intros H;
    try (left; split; [congruence|done]).
  apply bind_Ok in H as (c & _ & H). apply bind_Ok in H as (o & _ & H).
  right. exists o. split; [congruence|done].
Qed.

Lemma cleanJsonSchema_truthy schema cleaned :
  cleanJsonSchema regexp_valid schema = Ok cleaned ->
  truthy schema = true ->
  truthy cleaned = true /\ isArray cleaned = false.
Proof.
  intros H Ht. apply cleanJsonSchema_shape in H as [[-> Hg]|(o & -> & _)].
  - split; [done|]. rewrite Ht in Hg. by destruct schema.
  - done.
Qed.

(** *** The final pass *)

Lemma final_pass_get c o k :
  final_pass c = Ok o ->
  obj_get k o
  = match obj_get k c with
    | Some v => if removable k v then None else Some v
    | None => None
    end.
Proof.
  unfold final_pass. destruct (existsb _ c); [done|].
  intros H. inversion H. rewrite obj_get_filter_keys.
  destruct (obj_get k c) as [v|]; [|done]. by destruct (removable k v).
Qed.

Lemma final_pass_kept c o k v :
  final_pass c = Ok o -> obj_get k o = Some v ->
  obj_get k c = Some v /\ removable k v = false.
Proof.
  intros H Hget. rewrite (final_pass_get c o k H) in Hget.
  destruct (obj_get k c) as [v'|]; [|done].
  destruct (removable k v') eqn:Hr; [done|]. by inversion Hget; subst.
Qed.

Lemma final_pass_not_null c o k v :
  final_pass c = Ok o -> obj_get k c = Some v -> keys_of_null k v = false.
Proof.
  unfold final_pass. destruct (existsb _ c) eqn:Hex; [done|]. intros _ Hget.
  destruct (keys_of_null k v) eqn:Hk; [|done].
  assert (existsb (fun kv : string * Json =>
                     match obj_get (fst kv) c with
                     | Some value => keys_of_null (fst kv) value
                     | None => false
                     end) c = true); [|congruence].
  apply existsb_exists. exists (k, v). split; [by apply obj_get_key_in|].
  simpl. by rewrite Hget.
Qed.

Lemma final_pass_keys P c o : final_pass c = Ok o -> keys_all P c -> keys_all P o.
Proof.
  unfold final_pass. destruct (existsb _ c); [done|].
  intros H. inversion H. apply keys_all_filter.
Qed.

Lemma removable_null k v : keys_of_null k v = true -> removable k v = true.
Proof.
  unfold keys_of_null, removable. intros [_ Hn]%andb_true_iff.
  by destruct v.
Qed.

(** The final pass leaves its own result as it is. *)
Lemma final_pass_stable c o : final_pass c = Ok o -> final_pass o = Ok o.
Proof.
  intros H. unfold final_pass.
  destruct (existsb _ o) eqn:Hex.
  - apply existsb_exists in Hex as [[k v] [Hin Hk]]. simpl in Hk.
    destruct (obj_get k o) as [v'|] eqn:Hget; [|done].
    apply (final_pass_kept c o k v' H) in Hget as [_ Hr].
    apply removable_null in Hk. congruence.
  - f_equal. apply obj_filter_keys_all, List.Forall_forall.
    intros [k v] Hin. simpl.
    destruct (obj_get k o) as [v'|] eqn:Hget; [|done].
    apply (final_pass_kept c o k v' H) in Hget as [_ Hr]. by rewrite Hr.
Qed.

(** *** The type of the result *)

(** [type] after [normalize_type], from the [type] of the schema. *)
Definition normalized_type (t : option Json) : Json :=
  match t with
  | None => JStr "object"
  | Some (JStr s) => JStr (if includes s validTypes then s else "string")
  | Some t => t
  end.

#[local] Arguments includes : simpl never.

Lemma normalize_type_type c :
  obj_get "type" (normalize_type c)
  = Some (normalized_type (obj_get "type" c)).
Proof.
  unfold normalize_type, normalized_type.
  destruct (obj_get "type" c) as [t|] eqn:Ht.
  - destruct t; simpl; try done.
    destruct (includes s validTypes); [done|].
    by rewrite obj_get_set.
  - by rewrite obj_get_set.
Qed.

Lemma prepared_type schema :
  obj_get "type" (prepared schema)
  = Some (normalized_type (obj_get "type" (own_entries schema))).
Proof.
  unfold prepared.
  rewrite drop_nullable_get, normalize_type_type, obj_get_filter_keys,
    obj_get_delete.
  done.
Qed.

Lemma run_steps_get rec ss : forall c c' k,
  incl ss steps ->
  run_steps rec ss c = Ok c' ->
  ~ In k (List.map step_key ss) ->
  obj_get k c' = obj_get k c.
Proof.
  induction ss as [|s ss IH]; intros c c' k Hincl Hrun Hk; simpl in Hrun.
  - congruence.
  - apply bind_Ok in Hrun as (c1 & Hs & Hrun).
    rewrite (IH c1 c' k); try done.
    + eapply upd_at_get; [eapply steps_upd; eauto; apply Hincl; by left|].
      intros ->. apply Hk. by left.
    + intros s' Hs'. apply Hincl. by right.
    + intros Hin. apply Hk. by right.
Qed.

Lemma run_steps_keys rec ss : forall c c',
  incl ss steps ->
  run_steps rec ss c = Ok c' ->
  keys_all (fun key => includes key allowedTopLevelProps) c ->
  keys_all (fun key => includes key allowedTopLevelProps) c'.
Proof.
  induction ss as [|s ss IH]; intros c c' Hincl Hrun Hc; simpl in Hrun.
  - congruence.
  - apply bind_Ok in Hrun as (c1 & Hs & Hrun).
    assert (Hin : In s steps) by (apply Hincl; by left).
    apply (IH c1 c'); try done.
    + intros s' Hs'. apply Hincl. by right.
    + eapply upd_at_keys; [eapply steps_upd; eauto| |done].
      by apply steps_key_allowed.
Qed.

Lemma prepared_keys schema :
  keys_all (fun key => includes key allowedTopLevelProps) (prepared schema).
Proof.
  unfold prepared.
  assert (Hn : forall c,
    keys_all (fun key => includes key allowedTopLevelProps) c ->
    keys_all (fun key => includes key allowedTopLevelProps) (normalize_type c)).
  { intros c Hc. unfold normalize_type.
    repeat case_match; auto using keys_all_set. }
  assert (Hd : forall c,
    keys_all (fun key => includes key allowedTopLevelProps) c ->
    keys_all (fun key => includes key allowedTopLevelProps) (drop_nullable c)).
  { intros c Hc. unfold drop_nullable, obj_delete.
    case_match; auto using keys_all_filter. }
  apply Hd, Hn, keys_all_filter_self.
Qed.

(** *** Each step leaves its own result as it is *)

Lemma filter_all {A} (f : A -> bool) l :
  (forall x, In x l -> f x = true) -> List.filter f l = l.
Proof.
  induction l as [|x l IH]; simpl; intros H; [done|].
  rewrite (H x) by auto. f_equal. auto.
Qed.

Section Stable.

Variable P : Json -> Prop.
Hypothesis P_hereditary : hereditary P.
Hypothesis P_stable : forall v v',
  P v -> cleanJsonSchema regexp_valid v = Ok v' ->
  cleanJsonSchema regexp_valid v' = Ok v'.

#[local] Abbreviation rec := (cleanJsonSchema regexp_valid).

Lemma mapM_rec_stable l l' :
  P (JArr l) -> mapM rec l = Ok l' -> mapM rec l' = Ok l'.
Proof.
  intros Hl Hmap. apply (mapM_stable _ _ _ Hmap).
  intros x y Hin Hxy. apply (P_stable x y); [|done].
  eapply hereditary_array; eauto.
Qed.

Lemma clean_properties_stable c c' o :
  (forall v, obj_get "properties" c = Some v -> P v) ->
  clean_properties rec c = Ok c' ->
  obj_get "properties" o = None
  \/ obj_get "properties" o = obj_get "properties" c' ->
  clean_properties rec o = Ok o.
Proof.
  intros HP Hrun Ho.
  assert (Hnone : obj_get "properties" o = None ->
                  clean_properties rec o = Ok o).
  { intros H. unfold clean_properties. by rewrite H. }
  destruct Ho as [Ho|Ho]; [auto|].
  unfold clean_properties in Hrun.
  destruct (obj_get "properties" c) as [p|] eqn:Hp.
  2: { inversion Hrun; subst c'. rewrite Hp in Ho. auto. }
  destruct (truthy p && typeof_object p) eqn:Hobj.
  - apply bind_Ok in Hrun as (e & He & Hrun). inversion Hrun; subst c'.
    rewrite obj_get_set, String.eqb_refl in Ho.
    unfold clean_properties. rewrite Ho. simpl.
    rewrite (mapM_stable _ _ _ He).
    + simpl. by rewrite obj_set_same.
    + intros [k w] [k' w'] Hin Hce. unfold clean_entry in *. simpl in *.
      apply bind_Ok in Hce as (w2 & Hw & Hce). inversion Hce; subst.
      rewrite (P_stable w w'); [done| |done].
      eapply P_hereditary; eauto.
  - inversion Hrun; subst c'. rewrite Hp in Ho.
    unfold clean_properties. by rewrite Ho, Hobj.
Qed.

Lemma items_stable c c' o :
  (forall v, obj_get "items" c = Some v -> P v) ->
  clean_items rec (drop_items_unless_array c) = Ok c' ->
  obj_get "items" o = None \/ obj_get "items" o = obj_get "items" c' ->
  obj_get "type" o = obj_get "type" c ->
  clean_items rec (drop_items_unless_array o) = Ok o.
Proof.
  intros HP Hrun Ho Htype.
  assert (Hnone : obj_get "items" o = None ->
                  clean_items rec (drop_items_unless_array o) = Ok o).
  { intros H. unfold drop_items_unless_array, clean_items. by rewrite H, H. }
  destruct Ho as [Ho|Ho]; [auto|].
  unfold drop_items_unless_array in Hrun.
  destruct (obj_get "items" c) as [i|] eqn:Hi.
  2: { unfold clean_items in Hrun. rewrite Hi in Hrun.
       inversion Hrun; subst c'. rewrite Hi in Ho. auto. }
  destruct (truthy i) eqn:Hti; simpl in Hrun.
  - destruct (negb match obj_get "type" c with
                   | Some t => is_string "array" t
                   | None => false
                   end) eqn:Harr.
    + unfold clean_items in Hrun. rewrite obj_get_delete in Hrun.
      simpl in Hrun. inversion Hrun; subst c'.
      rewrite obj_get_delete in Ho. auto.
    + unfold clean_items in Hrun. rewrite Hi, Hti in Hrun.
      assert (Hdrop : forall i', obj_get "items" o = Some i' ->
                                 drop_items_unless_array o = o).
      { intros i' Hi'. unfold drop_items_unless_array.
        rewrite Hi', Htype, Harr. by rewrite andb_false_r. }
      destruct (isArray i) eqn:Hia.
      * destruct i as [| | | |l|]; try done.
        apply bind_Ok in Hrun as (l' & Hl & Hrun). inversion Hrun; subst c'.
        rewrite obj_get_set, String.eqb_refl in Ho.
        rewrite (Hdrop _ Ho). unfold clean_items. rewrite Ho. simpl.
        rewrite (mapM_rec_stable l l') by auto. simpl.
        by rewrite obj_set_same.
      * assert (Hrun' : exists i', rec i = Ok i'
                                   /\ c' = obj_set "items" i' c).
        { destruct i; try done;
            apply bind_Ok in Hrun as (i' & Hi' & Hrun);
            inversion Hrun; eauto. }
        destruct Hrun' as (i' & Hi' & ->).
        rewrite obj_get_set, String.eqb_refl in Ho.
        destruct (cleanJsonSchema_truthy _ _ Hi' Hti) as [Hti' Hia'].
        rewrite (Hdrop _ Ho). unfold clean_items. rewrite Ho, Hti'.
        assert (Hst : rec i' = Ok i') by (eapply P_stable; eauto).
        destruct i'; try done; rewrite Hst; simpl; by rewrite obj_set_same.
  - unfold clean_items in Hrun. rewrite Hi, Hti in Hrun.
    inversion Hrun; subst c'. rewrite Hi in Ho.
    unfold drop_items_unless_array, clean_items. rewrite Ho, Hti. simpl.
    by rewrite Ho, Hti.
Qed.

Lemma clean_required_stable c o :
  obj_get "required" o = None
  \/ obj_get "required" o = obj_get "required" (clean_required c) ->
  clean_required o = o.
Proof.
  intros Ho.
  assert (Hnone : obj_get "required" o = None -> clean_required o = o).
  { intros H. unfold clean_required. by rewrite H. }
  destruct Ho as [Ho|Ho]; [auto|].
  unfold clean_required in Ho.
  destruct (obj_get "required" c) as [r|] eqn:Hr.
  2: { rewrite Hr in Ho. auto. }
  destruct (truthy r) eqn:Htr.
  2: { rewrite Hr in Ho. unfold clean_required. by rewrite Ho, Htr. }
  destruct (isArray r) eqn:Hia.
  - destruct r as [| | | |l|]; try done.
    destruct (List.filter required_entry l) as [|x kept] eqn:Hkept.
    + rewrite obj_get_delete in Ho. auto.
    + rewrite obj_get_set, String.eqb_refl in Ho.
      unfold clean_required. rewrite Ho. cbn [truthy].
      rewrite (filter_all required_entry (x :: kept)).
      * by rewrite obj_set_same.
      * intros y Hy. rewrite <- Hkept in Hy.
        by apply filter_In in Hy as [_ Hy].
  - assert (obj_get "required" o = None); [|auto].
    rewrite Ho. destruct r; try done; by rewrite obj_get_delete.
Qed.

Lemma clean_combinator_stable key c c' o :
  (forall v, obj_get key c = Some v -> P v) ->
  clean_combinator rec key c = Ok c' ->
  obj_get key o = None \/ obj_get key o = obj_get key c' ->
  clean_combinator rec key o = Ok o.
Proof.
  intros HP Hrun Ho.
  assert (Hnone : obj_get key o = None -> clean_combinator rec key o = Ok o).
  { intros H. unfold clean_combinator. by rewrite H. }
  destruct Ho as [Ho|Ho]; [auto|].
  unfold clean_combinator in Hrun.
  destruct (obj_get key c) as [v|] eqn:Hv.
  2: { inversion Hrun; subst c'. rewrite Hv in Ho. auto. }
  destruct (isArray v) eqn:Hia.
  - destruct v as [| | | |l|]; try done.
    apply bind_Ok in Hrun as (l' & Hl & Hrun). inversion Hrun; subst c'.
    rewrite obj_get_set, String.eqb_refl in Ho.
    unfold clean_combinator. rewrite Ho.
    rewrite (mapM_rec_stable l l') by auto. simpl.
    by rewrite obj_set_same.
  - assert (c' = c) as -> by (destruct v; try done; by inversion Hrun).
    rewrite Hv in Ho. unfold clean_combinator. rewrite Ho.
    by destruct v.
Qed.

Lemma clean_not_stable c c' o :
  (forall v, obj_get "not" c = Some v -> P v) ->
  clean_not rec c = Ok c' ->
  obj_get "not" o = None \/ obj_get "not" o = obj_get "not" c' ->
  clean_not rec o = Ok o.
Proof.
  intros HP Hrun Ho.
  assert (Hnone : obj_get "not" o = None -> clean_not rec o = Ok o).
  { intros H. unfold clean_not. by rewrite H. }
  destruct Ho as [Ho|Ho]; [auto|].
  unfold clean_not in Hrun.
  destruct (obj_get "not" c) as [n|] eqn:Hn.
  2: { inversion Hrun; subst c'. rewrite Hn in Ho. auto. }
  destruct (truthy n) eqn:Htn.
  - apply bind_Ok in Hrun as (n' & Hn' & Hrun). inversion Hrun; subst c'.
    rewrite obj_get_set, String.eqb_refl in Ho.
    destruct (cleanJsonSchema_truthy _ _ Hn' Htn) as [Htn' _].
    unfold clean_not. rewrite Ho, Htn'.
    rewrite (P_stable n n') by auto. simpl. by rewrite obj_set_same.
  - inversion Hrun; subst c'. rewrite Hn in Ho.
    unfold clean_not. by rewrite Ho, Htn.
Qed.

Lemma fix_pattern_stable c o :
  obj_get "pattern" o = None
  \/ obj_get "pattern" o = obj_get "pattern" (fix_pattern regexp_valid c) ->
  fix_pattern regexp_valid o = o.
Proof.
  intros Ho.
  assert (Hnone : obj_get "pattern" o = None ->
                  fix_pattern regexp_valid o = o).
  { intros H. unfold fix_pattern. by rewrite H. }
  destruct Ho as [Ho|Ho]; [auto|].
  unfold fix_pattern in Ho.
  destruct (obj_get "pattern" c) as [v|] eqn:Hv.
  2: { rewrite Hv in Ho. auto. }
  destruct v as [| | |p| |];
    try (rewrite Hv in Ho; unfold fix_pattern; by rewrite Ho).
  destruct (negb (String.eqb p "")) eqn:Hp.
  2: { rewrite Hv in Ho. unfold fix_pattern. by rewrite Ho, Hp. }
  destruct (regexp_valid p) eqn:Hvalid.
  { rewrite Hv in Ho. unfold fix_pattern. by rewrite Ho, Hp, Hvalid. }
  destruct (regexp_valid (escape_backslashes p)) eqn:Hfixed.
  - rewrite obj_get_set, String.eqb_refl in Ho.
    unfold fix_pattern. rewrite Ho, Hfixed.
    by destruct (negb (String.eqb (escape_backslashes p) "")).
  - rewrite obj_get_delete in Ho. auto.
Qed.

Lemma steps_stable s c c' o :
  In s steps ->
  (forall v, obj_get (step_key s) c = Some v -> P v) ->
  step_run s rec c = Ok c' ->
  obj_get (step_key s) o = None
  \/ obj_get (step_key s) o = obj_get (step_key s) c' ->
  obj_get "type" o = obj_get "type" c ->
  step_run s rec o = Ok o.
Proof.
  unfold steps. simpl.
  intros [<-|[<-|[<-|[<-|[<-|[<-|[<-|[<-|[]]]]]]]]]; simpl;
    intros HP Hrun Ho Htype.
  - eapply clean_properties_stable; eauto.
  - eapply items_stable; eauto.
  - inversion Hrun; subst c'. f_equal. eapply clean_required_stable; eauto.
  - eapply clean_combinator_stable; eauto.
  - eapply clean_combinator_stable; eauto.
  - eapply clean_combinator_stable; eauto.
  - eapply clean_not_stable; eauto.
  - inversion Hrun; subst c'. f_equal. eapply fix_pattern_stable; eauto.
Qed.

Lemma run_steps_stable ss : forall c c' o,
  incl ss steps ->
  NoDup (List.map step_key ss) ->
  (forall s v, In s ss -> obj_get (step_key s) c = Some v -> P v) ->
  run_steps rec ss c = Ok c' ->
  (forall s, In s ss ->
     obj_get (step_key s) o = None
     \/ obj_get (step_key s) o = obj_get (step_key s) c') ->
  obj_get "type" o = obj_get "type" c ->
  run_steps rec ss o = Ok o.
Proof.
  induction ss as [|s ss IH]; intros c c' o Hincl Hnd HP Hrun Ho Htype;
    simpl in *; [done|].
  apply bind_Ok in Hrun as (c1 & Hs & Hrun).
  assert (Hin : In s steps) by (apply Hincl; by left).
  assert (Hincl' : incl ss steps) by (intros s' Hs'; apply Hincl; by right).
  apply NoDup_cons in Hnd as [Hnotin Hnd].
  assert (Hnotin' : ~ In (step_key s) (List.map step_key ss)).
  { intros H. by apply Hnotin, list_elem_of_In. }
  assert (Hupd : upd_at (step_key s) c c1) by (eapply steps_upd; eauto).
  rewrite (steps_stable s c c1 o); eauto.
  - simpl. apply (IH c1 c'); eauto.
    + intros s' v Hs' Hget. apply (HP s' v); [by right|].
      rewrite <- Hget. symmetry. eapply upd_at_get; [eauto|].
      intros Heq. apply Hnotin'. rewrite <- Heq. by apply in_map.
    + rewrite Htype. symmetry. eapply upd_at_get; [eauto|].
      apply not_eq_sym. by apply steps_key_not_type.
  - rewrite <- (run_steps_get rec ss c1 c' (step_key s)); eauto.
Qed.

End Stable.

(** *** The result, normalized again *)

(** No object inside [v], [v] included, has an empty object or an empty
    array as its [type]. *)
Fixpoint no_empty_type (v : Json) : bool :=
  match v with
  | JObj fields =>
      negb match obj_get "type" fields with
           | Some (JObj []) | Some (JArr []) => true
           | _ => false
           end
      && forallb (fun kv => no_empty_type (snd kv)) fields
  | JArr items => forallb no_empty_type items
  | _ => true
  end.

Lemma no_empty_type_hereditary :
  hereditary (fun v => no_empty_type v = true).
Proof.
  intros v k w Hv Hin. destruct v; simpl in *; try done.
  - apply array_entries_in in Hin.
    rewrite forallb_forall in Hv. auto.
  - apply andb_true_iff in Hv as [_ Hv].
    rewrite forallb_forall in Hv. exact (Hv (k, w) Hin).
Qed.

Lemma index_key_not_type i : String.eqb (index_key i) "type" = false.
Proof.
  unfold index_key. destruct (Nat.to_uint i); reflexivity.
Qed.

Lemma array_entries_no_type l : forall i,
  obj_get "type" (array_entries i l) = None.
Proof.
  induction l as [|x l IH]; intros i; simpl; [done|].
  by rewrite index_key_not_type.
Qed.

Lemma no_empty_type_type v :
  no_empty_type v = true ->
  match obj_get "type" (own_entries v) with
  | Some (JObj []) | Some (JArr []) => False
  | _ => True
  end.
Proof.
  destruct v; simpl; try done.
  - by rewrite array_entries_no_type.
  - intros [Ht _]%andb_true_iff.
    destruct (obj_get "type" fields) as [[| | | |[|]|[|]]|]; done.
Qed.

Lemma normalized_type_idem t :
  normalized_type (Some (normalized_type t)) = normalized_type t.
Proof.
  destruct t as [[| | |s| |]|]; simpl; try done.
  destruct (includes s validTypes) eqn:Hs; [by rewrite Hs|done].
Qed.

Lemma prepared_stable o t :
  keys_all (fun key => includes key allowedTopLevelProps) o ->
  obj_get "type" o = Some t ->
  normalized_type (Some t) = t ->
  prepared (JObj o) = o.
Proof.
  intros Hkeys Ht Hnorm. unfold prepared. simpl own_entries.
  assert (Habsent : forall k, includes k allowedTopLevelProps = false ->
                              obj_get k o = None).
  { intros k Hk. destruct (obj_get k o) eqn:Hget; [|done].
    apply (keys_all_get _ _ _ _ Hkeys) in Hget. congruence. }
  rewrite obj_delete_absent by by apply Habsent.
  rewrite obj_filter_keys_all by exact Hkeys.
  assert (Hn : normalize_type o = o).
  { unfold normalize_type. rewrite Ht. unfold normalized_type in Hnorm.
    destruct t; try done.
    destruct (includes s validTypes) eqn:Hs; [done|].
    inversion Hnorm; subst s. done. }
  rewrite Hn. unfold drop_nullable, obj_has.
  by rewrite Habsent.
Qed.

(** The [type] of the result of an object or array schema. *)
Lemma cleanJsonSchema_result_type schema cleaned :
  truthy schema && typeof_object schema = true ->
  cleanJsonSchema regexp_valid schema = Ok cleaned ->
  exists c o,
    run_steps (cleanJsonSchema regexp_valid) steps (prepared schema) = Ok c
    /\ final_pass c = Ok o
    /\ cleaned = JObj o
    /\ obj_get "type" c
       = Some (normalized_type (obj_get "type" (own_entries schema))).
Proof.
  intros Hobj. rewrite cleanJsonSchema_unfold, cleanBody_steps.
  apply andb_true_iff in Hobj as [-> ->]. cbn [negb orb]. intros H.
  apply bind_Ok in H as (c & Hc & H). apply bind_Ok in H as (o & Ho & H).
  exists c, o. split; [done|]. split; [done|]. split; [congruence|].
  rewrite (run_steps_get (cleanJsonSchema regexp_valid) steps
             (prepared schema) c "type");
    auto using incl_refl.
  - apply prepared_type.
  - rewrite steps_keys. simpl. intuition discriminate.
Qed.

Lemma cleanJsonSchema_stable_below n : forall schema cleaned,
  depth schema < n ->
  no_empty_type schema = true ->
  cleanJsonSchema regexp_valid schema = Ok cleaned ->
  cleanJsonSchema regexp_valid cleaned = Ok cleaned.
Proof.
  induction n as [|n IH]; intros schema cleaned Hdepth Hwf Hclean; [lia|].
  destruct (truthy schema && typeof_object schema) eqn:Hobj.
  2: { apply cleanJsonSchema_shape in Hclean as Hshape.
       destruct Hshape as [[-> _]|(o & _ & Hcontra)]; congruence. }
  destruct (cleanJsonSchema_result_type _ _ Hobj Hclean)
    as (c & o & Hrun & Hfinal & -> & Htype).
  set (t := normalized_type (obj_get "type" (own_entries schema))) in *.
  assert (Hkeep : removable "type" t = false).
  { pose proof (final_pass_not_null c o "type" t Hfinal Htype) as Hnull.
    pose proof (no_empty_type_type schema Hwf) as Hne.
    unfold t, normalized_type in *.
    destruct (obj_get "type" (own_entries schema)) as [[| | |s|[|]|[|]]|];
      try done.
    destruct (includes s validTypes) eqn:Hs; [|done].
    destruct s; done. }
  assert (Htype_o : obj_get "type" o = Some t).
  { by rewrite (final_pass_get c o "type" Hfinal), Htype, Hkeep. }
  assert (Hkeys : keys_all (fun key => includes key allowedTopLevelProps) o).
  { eapply final_pass_keys; [eauto|].
    eapply run_steps_keys; eauto using incl_refl, prepared_keys. }
  rewrite cleanJsonSchema_unfold, cleanBody_steps.
  cbn [truthy typeof_object negb orb].
  rewrite (prepared_stable o t) by (auto; apply normalized_type_idem).
  rewrite (run_steps_stable
             (fun v => depth v < depth schema /\ no_empty_type v = true)
             ltac:(intros v k w [Hd Hw] Hin; split;
                   [eapply hereditary_depth; eauto
                   |eapply no_empty_type_hereditary; eauto])
             ltac:(intros v v' [Hd Hw] Hv; apply (IH v v'); [lia|done|done])
             steps (prepared schema) c o);
    auto using incl_refl, NoDup_steps_keys.
  - simpl. by rewrite (final_pass_stable c o).
  - intros s v Hs Hget. apply prepared_get in Hget;
      [|by apply steps_key_not_type].
    apply obj_get_key_in in Hget. split.
    + eapply depth_in_entries; eauto.
    + eapply no_empty_type_hereditary; eauto.
  - intros s Hs. rewrite (final_pass_get c o _ Hfinal).
    destruct (obj_get (step_key s) c) as [v|]; [|by left].
    destruct (removable (step_key s) v); auto.
  - by rewrite Htype_o, prepared_type.
Qed.

(** C5, amended. On a schema in which no object has an empty object or
    an empty array as its [type], whenever the normalizer returns it
    returns a schema that it returns unchanged. *)
Theorem cleanJsonSchema_idempotent schema cleaned :
  no_empty_type schema = true ->
  cleanJsonSchema regexp_valid schema = Ok cleaned ->
  cleanJsonSchema regexp_valid cleaned = Ok cleaned.
Proof.
  intros Hwf Hclean.
  apply (cleanJsonSchema_stable_below (S (depth schema)) schema cleaned);
    [lia|done|done].
Qed.

(** C6, amended. The normalizer turns an object or array schema, when
    it returns, into an object.  When the schema has no [type] the
    result has type ["object"]; when its [type] is a string other than
    the empty one, the result has that string if it is one of the seven
    type names and ["string"] otherwise, in both cases one of the seven;
    a [type] that is not a string is not coerced.  A schema that is not
    an object or an array is returned as it is. *)
Theorem cleanJsonSchema_type schema cleaned :
  cleanJsonSchema regexp_valid schema = Ok cleaned ->
  if truthy schema && typeof_object schema
  then
    exists o,
      cleaned = JObj o
      /\ (obj_get "type" (own_entries schema) = None ->
          obj_get "type" o = Some (JStr "object"))
      /\ (forall s, obj_get "type" (own_entries schema) = Some (JStr s) ->
                    s <> "" ->
          exists s', obj_get "type" o = Some (JStr s')
                     /\ includes s' validTypes = true
                     /\ s' = if includes s validTypes then s else "string")
      /\ (forall t, obj_get "type" (own_entries schema) = Some t ->
                    (forall s, t <> JStr s) ->
          obj_get "type" o = if removable "type" t then None else Some t)
  else cleaned = schema.
Proof.
  intros Hclean.
  destruct (truthy schema && typeof_object schema) eqn:Hobj.
  2: { rewrite cleanJsonSchema_unfold in Hclean. unfold cleanBody in Hclean.
       apply andb_false_iff in Hobj.
       assert (Hnot : negb (truthy schema) || negb (typeof_object schema) = true)
         by (destruct Hobj as [-> | ->]; [done|apply orb_true_r]).
       rewrite Hnot in Hclean. by inversion Hclean. }
  destruct (cleanJsonSchema_result_type _ _ Hobj Hclean)
    as (c & o & Hrun & Hfinal & -> & Htype).
  exists o. split; [done|].
  rewrite (final_pass_get c o "type" Hfinal), Htype.
  split; [|split].
  - by intros ->.
  - intros s -> Hs. simpl.
    destruct (includes s validTypes) eqn:Hvalid.
    + exists s. destruct s; [done|]. by rewrite Hvalid.
    + by exists "string".
  - intros t -> Ht. destruct t; try done. by destruct (Ht s).
Qed.

End NormalizerFacts.

(** C5, as stated, fails: an empty object as [type] is deleted by the
    final pass, and normalizing the result gives it a [type]. *)
Lemma cleanJsonSchema_not_idempotent :
  (forall regexp_valid,
     cleanJsonSchema regexp_valid (JObj [("type", JObj [])]) = Ok (JObj []))
  /\ (forall regexp_valid,
        cleanJsonSchema regexp_valid (JObj [])
        = Ok (JObj [("type", JStr "object")])).
Proof. split; intros regexp_valid; reflexivity. Qed.

Lemma cleanJsonSchema_idempotent_witness :
  cleanJsonSchema (fun _ => true)
    (JObj [("type", JStr "string"); ("properties", JObj [])])
  = Ok (JObj [("type", JStr "string"); ("properties", JObj [])]).
Proof.
  apply (cleanJsonSchema_idempotent (fun _ => true)
           (JObj [("$schema", JStr "draft-07"); ("type", JStr "text");
                  ("properties", JArr []); ("items", JObj [])])).
  - vm_compute. reflexivity.
  - vm_compute. reflexivity.
Defined.

(** C6, as stated, fails: a [type] that lists type names is kept as it
    is, so the [type] of the result is not one of the seven names. *)
Lemma cleanJsonSchema_keeps_type_list :
  (forall regexp_valid,
     cleanJsonSchema regexp_valid
       (JObj [("type", JArr [JStr "string"; JStr "null"])])
     = Ok (JObj [("type", JArr [JStr "string"; JStr "null"])]))
  /\ forall s, JArr [JStr "string"; JStr "null"] <> JStr s.
Proof. split; [intros regexp_valid; reflexivity|done]. Qed.

Lemma cleanJsonSchema_type_witness :
  exists o,
    JObj [("type", JStr "string"); ("properties", JObj [("n", JObj [("type", JStr "object")])])]
    = JObj o
    /\ (obj_get "type"
          (own_entries (JObj [("type", JStr "text");
                              ("properties", JObj [("n", JObj [])])])) = None ->
        obj_get "type" o = Some (JStr "object"))
    /\ (forall s,
          obj_get "type"
            (own_entries (JObj [("type", JStr "text");
                                ("properties", JObj [("n", JObj [])])]))
          = Some (JStr s) ->
          s <> "" ->
          exists s', obj_get "type" o = Some (JStr s')
                     /\ includes s' validTypes = true
                     /\ s' = if includes s validTypes then s else "string")
    /\ (forall t,
          obj_get "type"
            (own_entries (JObj [("type", JStr "text");
                                ("properties", JObj [("n", JObj [])])]))
          = Some t ->
          (forall s, t <> JStr s) ->
          obj_get "type" o = if removable "type" t then None else Some t).
Proof.
  apply (cleanJsonSchema_type (fun _ => true)
           (JObj [("type", JStr "text"); ("properties", JObj [("n", JObj [])])])).
  vm_compute. reflexivity.
Defined.

(** A schema with a draft-07 marker, an unknown type and empty entries. *)
Example clean_example :
  cleanJsonSchema (fun _ => true)
    (JObj [("$schema", JStr "http://json-schema.org/draft-07/schema#");
           ("type", JStr "foo");
           ("nullable", JBool true);
           ("properties", JObj [("a", JObj [("title", JStr "")])]);
           ("items", JObj []);
           ("required", JArr [JStr "a"; JStr ""; JNum 3])])
  = Ok (JObj [("type", JStr "string");
              ("properties", JObj [("a", JObj [("type", JStr "object")])]);
              ("required", JArr [JStr "a"])]).
Proof. vm_compute. reflexivity. Qed.

(** The branch for an empty [type] is never taken: the empty string is a
    string that is not a type name, and becomes ["string"]. *)
Example empty_type_becomes_string regexp_valid :
  cleanJsonSchema regexp_valid (JObj [("type", JStr "")])
  = Ok (JObj [("type", JStr "string")]).
Proof. reflexivity. Qed.

(** A [null] under a key other than [properties] and [default] makes the
    final pass throw. *)
Example null_value_throws regexp_valid :
  cleanJsonSchema regexp_valid (JObj [("type", JStr "string"); ("const", JNull)])
  = TypeError.
Proof. reflexivity. Qed.

(** * Further properties of the schema normalizer *)

Lemma prepared_get_eq k schema :
  k <> "type" ->
  obj_get k (prepared schema)
  = if includes k allowedTopLevelProps
    then obj_get k (own_entries schema) else None.
Proof.
  intros Hne. unfold prepared.
  rewrite drop_nullable_get, normalize_type_get, obj_get_filter_keys,
    obj_get_delete by done.
  destruct (String.eqb_spec k "nullable") as [->|_]; [done|].
  destruct (String.eqb_spec k "$schema") as [->|_]; [done|].
  done.
Qed.

Section NormalizerResults.

Variable regexp_valid : string -> bool.

#[local] Abbreviation normalize := (cleanJsonSchema regexp_valid).

(** The step of a key, within the run of the steps. *)
Lemma run_steps_at rec ss : forall c c' s,
  incl ss (steps regexp_valid) ->
  NoDup (List.map step_key ss) ->
  In s ss ->
  run_steps rec ss c = Ok c' ->
  exists before after,
    step_run s rec before = Ok after
    /\ obj_get (step_key s) before = obj_get (step_key s) c
    /\ obj_get "type" before = obj_get "type" c
    /\ obj_get (step_key s) c' = obj_get (step_key s) after.
Proof.
  induction ss as [|s0 ss IH]; intros c c' s Hincl Hnd Hin Hrun; [done|].
  simpl in Hrun. apply bind_Ok in Hrun as (c1 & Hs0 & Hrun).
  assert (Hin0 : In s0 (steps regexp_valid)) by (apply Hincl; by left).
  assert (Hincl' : incl ss (steps regexp_valid))
    by (intros s' Hs'; apply Hincl; by right).
  simpl in Hnd. apply NoDup_cons in Hnd as [Hnotin Hnd].
  assert (Hupd : upd_at (step_key s0) c c1) by (eapply steps_upd; eauto).
  destruct Hin as [->|Hin].
  - exists c, c1. split; [done|]. split; [done|]. split; [done|].
    eapply run_steps_get; eauto.
    intros H. by apply Hnotin, list_elem_of_In.
  - destruct (IH c1 c' s Hincl' Hnd Hin Hrun)
      as (before & after & Hstep & Hkey & Htype & Hres).
    exists before, after. split; [done|].
    split; [|split; [|done]].
    + rewrite Hkey. eapply upd_at_get; [eauto|].
      intros Heq. apply Hnotin, list_elem_of_In. rewrite <- Heq.
      by apply in_map.
    + rewrite Htype. eapply upd_at_get; [eauto|].
      apply not_eq_sym. by eapply steps_key_not_type.
Qed.

(** What is behind a result that is an object. *)
Lemma cleanJsonSchema_object schema o :
  normalize schema = Ok (JObj o) ->
  exists c,
    run_steps normalize (steps regexp_valid) (prepared schema) = Ok c
    /\ final_pass c = Ok o.
Proof.
  intros Hclean.
  destruct (truthy schema && typeof_object schema) eqn:Hobj.
  - destruct (cleanJsonSchema_result_type _ _ _ Hobj Hclean)
      as (c & o' & Hrun & Hfinal & Heq & _).
    inversion Heq; subst o'. eauto.
  - apply cleanJsonSchema_shape in Hclean as [[<- Hg]|(o' & _ & Hg)];
      [done|congruence].
Qed.

(** The step of a key on the way to the result [o]. *)
Lemma cleanJsonSchema_step schema o s :
  normalize schema = Ok (JObj o) ->
  In s (steps regexp_valid) ->
  exists before after,
    step_run s normalize before = Ok after
    /\ obj_get (step_key s) before
       = (if includes (step_key s) allowedTopLevelProps
          then obj_get (step_key s) (own_entries schema) else None)
    /\ obj_get "type" before
       = Some (normalized_type (obj_get "type" (own_entries schema)))
    /\ obj_get (step_key s) o
       = match obj_get (step_key s) after with
         | Some v => if removable (step_key s) v then None else Some v
         | None => None
         end
    /\ obj_get "type" o
       = (let t := normalized_type (obj_get "type" (own_entries schema)) in
          if removable "type" t then None else Some t).
Proof.
  intros Hclean Hs.
  destruct (cleanJsonSchema_object schema o Hclean) as (c & Hrun & Hfinal).
  destruct (run_steps_at normalize (steps regexp_valid) (prepared schema) c s)
    as (before & after & Hstep & Hkey & Htype & Hres);
    auto using incl_refl, NoDup_steps_keys.
  exists before, after. split; [done|].
  split; [|split; [|split]].
  - rewrite Hkey. apply prepared_get_eq. by eapply steps_key_not_type.
  - rewrite Htype. apply prepared_type.
  - by rewrite (final_pass_get c o _ Hfinal), Hres.
  - rewrite (final_pass_get c o _ Hfinal).
    rewrite (run_steps_get regexp_valid normalize (steps regexp_valid)
               (prepared schema) c "type");
      auto using incl_refl.
    + by rewrite prepared_type.
    + rewrite steps_keys. simpl. intuition discriminate.
Qed.

Lemma cleanJsonSchema_keys_all schema o :
  normalize schema = Ok (JObj o) ->
  keys_all (fun key => includes key allowedTopLevelProps) o.
Proof.
  intros Hclean.
  destruct (cleanJsonSchema_object schema o Hclean) as (c & Hrun & Hfinal).
  eapply final_pass_keys; [eauto|].
  eapply run_steps_keys; eauto using incl_refl, prepared_keys.
Qed.

(** X1. The result of the normalizer has keys of the allow-list only: no
    [$schema], no [nullable], no unknown key. *)
Theorem cleanJsonSchema_allowed_keys schema o k v :
  normalize schema = Ok (JObj o) ->
  In (k, v) o ->
  includes k allowedTopLevelProps = true.
Proof.
  intros Hclean Hin.
  pose proof (cleanJsonSchema_keys_all schema o Hclean) as Hkeys.
  unfold keys_all in Hkeys. rewrite List.Forall_forall in Hkeys.
  exact (Hkeys (k, v) Hin).
Qed.

(** X2. No value of the result is [null] or the empty string; apart from
    [properties] and [default] none is an empty object, and apart from
    these and [enum] none is an empty array. *)
Theorem cleanJsonSchema_no_empty_value schema o k v :
  normalize schema = Ok (JObj o) ->
  obj_get k o = Some v ->
  v <> JNull /\ v <> JStr ""
  /\ (k <> "properties" -> k <> "default" ->
      v <> JObj [] /\ (k <> "enum" -> v <> JArr [])).
Proof.
  intros Hclean Hget.
  destruct (cleanJsonSchema_object schema o Hclean) as (c & Hrun & Hfinal).
  destruct (final_pass_kept c o k v Hfinal Hget) as [_ Hrem].
  unfold removable in Hrem.
  apply orb_false_iff in Hrem as [[Hnull Hempty]%orb_false_iff Hrest].
  split; [by intros ->|]. split; [by intros ->|].
  intros Hp Hd.
  apply String.eqb_neq in Hp, Hd. rewrite Hp, Hd in Hrest. simpl in Hrest.
  split; [by intros ->|].
  intros He%String.eqb_neq ->. by rewrite He in Hrest.
Qed.


(** A step leaves a [null] under its key where it is. *)
Lemma steps_null s rec c :
  In s (steps regexp_valid) ->
  obj_get (step_key s) c = Some JNull ->
  step_run s rec c = Ok c.
Proof.
  unfold steps. simpl.
  intros [<-|[<-|[<-|[<-|[<-|[<-|[<-|[<-|[]]]]]]]]]; simpl; intros Hnull.
  - unfold clean_properties. by rewrite Hnull.
  - unfold drop_items_unless_array, clean_items. rewrite Hnull. simpl.
    by rewrite Hnull.
  - unfold clean_required. by rewrite Hnull.
  - unfold clean_combinator. by rewrite Hnull.
  - unfold clean_combinator. by rewrite Hnull.
  - unfold clean_combinator. by rewrite Hnull.
  - unfold clean_not. by rewrite Hnull.
  - unfold fix_pattern. by rewrite Hnull.
Qed.

Lemma run_steps_null rec ss : forall c c' k,
  incl ss (steps regexp_valid) ->
  run_steps rec ss c = Ok c' ->
  obj_get k c = Some JNull ->
  obj_get k c' = Some JNull.
Proof.
  induction ss as [|s ss IH]; intros c c' k Hincl Hrun Hnull; simpl in Hrun.
  - congruence.
  - apply bind_Ok in Hrun as (c1 & Hs & Hrun).
    assert (Hin : In s (steps regexp_valid)) by (apply Hincl; by left).
    apply (IH c1 c' k); [intros s' Hs'; apply Hincl; by right|done|].
    destruct (String.eqb_spec k (step_key s)) as [->|Hne].
    + rewrite (steps_null s rec c Hin Hnull) in Hs. congruence.
    + rewrite <- Hnull. eapply upd_at_get; [eapply steps_upd; eauto|done].
Qed.

(** X3. A [null] under an allowed key other than [properties] and
    [default] makes the normalizer throw. *)
Theorem cleanJsonSchema_null_throws schema k :
  truthy schema && typeof_object schema = true ->
  obj_get k (own_entries schema) = Some JNull ->
  includes k allowedTopLevelProps = true ->
  k <> "properties" -> k <> "default" ->
  normalize schema = TypeError.
Proof.
  intros Hobj Hnull Hallowed Hp Hd.
  destruct (normalize schema) as [cleaned| |] eqn:Hclean; [|done|].
  2: { by apply cleanJsonSchema_total in Hclean. }
  exfalso.
  destruct (cleanJsonSchema_result_type _ _ _ Hobj Hclean)
    as (c & o & Hrun & Hfinal & _ & _).
  assert (Hprep : obj_get k (prepared schema) = Some JNull).
  { destruct (String.eqb_spec k "type") as [->|Hne].
    - by rewrite prepared_type, Hnull.
    - by rewrite prepared_get_eq, Hallowed. }
  pose proof (run_steps_null _ _ _ _ k (incl_refl _) Hrun Hprep) as Hc.
  pose proof (final_pass_not_null c o k JNull Hfinal Hc) as Hk.
  unfold keys_of_null in Hk.
  apply String.eqb_neq in Hp, Hd. by rewrite Hp, Hd in Hk.
Qed.

Lemma index_key_not_allowed i :
  includes (index_key i) allowedTopLevelProps = false
  /\ String.eqb (index_key i) "$schema" = false.
Proof.
  unfold index_key. destruct (Nat.to_uint i); split; reflexivity.
Qed.

Lemma array_entries_filtered l : forall i,
  obj_filter_keys (fun key => includes key allowedTopLevelProps)
    (obj_delete "$schema" (array_entries i l)) = [].
Proof.
  induction l as [|x l IH]; intros i; [done|].
  destruct (index_key_not_allowed i) as [Ha Hs].
  unfold obj_delete, obj_filter_keys in *.
  cbn [array_entries List.filter fst]. rewrite Hs.
  cbn [negb List.filter fst]. rewrite Ha. apply IH.
Qed.

(** X4. An array given as a schema is normalized to the object with
    [type] "object" alone: its elements are not looked at. *)
Theorem cleanJsonSchema_array l :
  cleanJsonSchema regexp_valid (JArr l) = Ok (JObj [("type", JStr "object")]).
Proof.
  rewrite cleanJsonSchema_unfold, cleanBody_steps.
  cbn [truthy typeof_object negb orb].
  assert (Hprep : prepared (JArr l) = [("type", JStr "object")]).
  { unfold prepared. simpl own_entries. by rewrite array_entries_filtered. }
  rewrite Hprep. reflexivity.
Qed.

(** X5. [items] is kept only under the type "array". *)
Theorem cleanJsonSchema_items_need_array schema o i :
  normalize schema = Ok (JObj o) ->
  obj_get "items" o = Some i ->
  truthy i = true ->
  obj_get "type" o = Some (JStr "array").
Proof.
  intros Hclean Hitems Htruthy.
  destruct (cleanJsonSchema_step schema o
              {| step_key := "items";
                 step_run := fun rec c =>
                   clean_items rec (drop_items_unless_array c) |} Hclean)
    as (before & after & Hstep & _ & Htype & Hres & Htype_o).
  { unfold steps. simpl. auto. }
  simpl in Hstep, Hres. rewrite Hitems in Hres.
  assert (Harr : match obj_get "type" before with
                 | Some t => is_string "array" t
                 | None => false
                 end = true).
  { unfold drop_items_unless_array, clean_items in Hstep.
    destruct (obj_get "items" before) as [i0|] eqn:Hi0.
    2: { rewrite Hi0 in Hstep. inversion Hstep; subst after.
         by rewrite Hi0 in Hres. }
    destruct (truthy i0) eqn:Hti0; simpl in Hstep.
    - destruct (match obj_get "type" before with
                | Some t => is_string "array" t
                | None => false
                end) eqn:Ht; [done|]. simpl in Hstep.
      rewrite obj_get_delete in Hstep. simpl in Hstep.
      inversion Hstep; subst after. by rewrite obj_get_delete in Hres.
    - rewrite Hi0, Hti0 in Hstep. inversion Hstep; subst after.
      rewrite Hi0 in Hres. destruct (removable "items" i0); [done|].
      congruence. }
  rewrite Htype in Harr. rewrite Htype_o. cbv zeta.
  destruct (normalized_type _) as [| | |s| |]; try done.
  simpl in Harr. apply String.eqb_eq in Harr as ->. reflexivity.
Qed.

Lemma clean_required_result c r :
  obj_get "required" (clean_required c) = Some r ->
  truthy r = true ->
  exists names,
    r = JArr names /\ names <> []
    /\ forall x, In x names -> required_entry x = true.
Proof.
  unfold clean_required. intros Hget Htruthy.
  destruct (obj_get "required" c) as [r0|] eqn:Hr0; [|congruence].
  destruct (truthy r0) eqn:Ht0; [|congruence].
  destruct (isArray r0) eqn:Hia.
  - destruct r0 as [| | | |l|]; try done.
    destruct (List.filter required_entry l) as [|x kept] eqn:Hkept.
    + by rewrite obj_get_delete in Hget.
    + rewrite obj_get_set, String.eqb_refl in Hget. inversion Hget; subst r.
      exists (x :: kept). split; [done|]. split; [done|].
      intros y Hy. rewrite <- Hkept in Hy. by apply filter_In in Hy as [_ Hy].
  - destruct r0; try done; by rewrite obj_get_delete in Hget.
Qed.

(** X6. A [required] of the result that is not falsy is a list, not
    empty, of strings, none of them empty. *)
Theorem cleanJsonSchema_required schema o r :
  normalize schema = Ok (JObj o) ->
  obj_get "required" o = Some r ->
  truthy r = true ->
  exists names,
    r = JArr names /\ names <> []
    /\ forall x, In x names -> exists s, x = JStr s /\ s <> "".
Proof.
  intros Hclean Hreq Htruthy.
  destruct (cleanJsonSchema_step schema o
              {| step_key := "required";
                 step_run := fun _ c => Ok (clean_required c) |} Hclean)
    as (before & after & Hstep & _ & _ & Hres & _).
  { unfold steps. simpl. auto. }
  simpl in Hstep, Hres. inversion Hstep; subst after.
  rewrite Hreq in Hres.
  destruct (obj_get "required" (clean_required before)) as [r'|] eqn:Hr';
    [|done].
  destruct (removable "required" r'); [done|]. inversion Hres; subst r'.
  destruct (clean_required_result before r Hr' Htruthy)
    as (names & -> & Hne & Hall).
  exists names. split; [done|]. split; [done|].
  intros x Hx. specialize (Hall x Hx). destruct x; try done.
  exists s. split; [done|]. intros ->. done.
Qed.

Lemma fix_pattern_result c p :
  obj_get "pattern" (fix_pattern regexp_valid c) = Some (JStr p) ->
  p <> "" ->
  regexp_valid p = true.
Proof.
  unfold fix_pattern. intros Hget Hp.
  destruct (obj_get "pattern" c) as [v|] eqn:Hv; [|congruence].
  destruct v as [| | |p0| |]; try congruence.
  destruct (String.eqb_spec p0 "") as [->|Hp0]; simpl in Hget.
  { rewrite Hv in Hget. congruence. }
  destruct (regexp_valid p0) eqn:Hvalid.
  { rewrite Hv in Hget. congruence. }
  destruct (regexp_valid (escape_backslashes p0)) eqn:Hfixed.
  - rewrite obj_get_set, String.eqb_refl in Hget. congruence.
  - by rewrite obj_get_delete in Hget.
Qed.

(** X7. A [pattern] of the result that is a string is one that
    [new RegExp] accepts. *)
Theorem cleanJsonSchema_pattern_valid schema o p :
  normalize schema = Ok (JObj o) ->
  obj_get "pattern" o = Some (JStr p) ->
  regexp_valid p = true.
Proof.
  intros Hclean Hpat.
  destruct (cleanJsonSchema_step schema o
              {| step_key := "pattern";
                 step_run := fun _ c => Ok (fix_pattern regexp_valid c) |}
              Hclean)
    as (before & after & Hstep & _ & _ & Hres & _).
  { unfold steps. simpl. auto 10. }
  simpl in Hstep, Hres. inversion Hstep; subst after.
  rewrite Hpat in Hres.
  destruct (obj_get "pattern" (fix_pattern regexp_valid before)) as [v|] eqn:Hv;
    [|done].
  destruct (removable "pattern" v) eqn:Hrem; [done|].
  inversion Hres; subst v.
  apply (fix_pattern_result before p Hv).
  intros ->. done.
Qed.

(** X8. A pattern that [new RegExp] rejects, also after the repair of
    its backslashes, is not in the result. *)
Theorem cleanJsonSchema_drops_bad_pattern schema o p :
  normalize schema = Ok (JObj o) ->
  obj_get "pattern" (own_entries schema) = Some (JStr p) ->
  regexp_valid p = false ->
  regexp_valid (escape_backslashes p) = false ->
  obj_get "pattern" o = None.
Proof.
  intros Hclean Hpat Hbad Hbad'.
  destruct (cleanJsonSchema_step schema o
              {| step_key := "pattern";
                 step_run := fun _ c => Ok (fix_pattern regexp_valid c) |}
              Hclean)
    as (before & after & Hstep & Hbefore & _ & Hres & _).
  { unfold steps. simpl. auto 10. }
  simpl in Hstep, Hbefore, Hres. inversion Hstep; subst after.
  change (includes "pattern" allowedTopLevelProps) with true in Hbefore.
  rewrite Hpat in Hbefore. rewrite Hres.
  unfold fix_pattern. rewrite Hbefore.
  destruct (String.eqb_spec p "") as [->|Hp]; simpl.
  - by rewrite Hbefore.
  - rewrite Hbad, Hbad'. by rewrite obj_get_delete.
Qed.

Lemma mapM_clean_entry rec l : forall e,
  mapM (clean_entry rec) l = Ok e ->
  List.map fst e = List.map fst l
  /\ Forall2 (fun kv kv' => rec (snd kv) = Ok (snd kv')) l e.
Proof.
  induction l as [|[k v] l IH]; intros e Hmap; simpl in Hmap.
  - inversion Hmap. by split.
  - apply bind_Ok in Hmap as ([k' v'] & Hkv & Hmap).
    apply bind_Ok in Hmap as (e' & He' & Hmap). inversion Hmap; subst e.
    unfold clean_entry in Hkv. simpl in Hkv.
    apply bind_Ok in Hkv as (w & Hw & Hkv). inversion Hkv; subst.
    destruct (IH e' He') as [Hkeys Hall].
    split; [simpl; by rewrite Hkeys|]. by constructor.
Qed.

(** X9. The [properties] of an object schema, when they are an object
    (or an array), are in the result under the same names in the same
    order, each one normalized. *)
Theorem cleanJsonSchema_properties schema o p :
  normalize schema = Ok (JObj o) ->
  obj_get "properties" (own_entries schema) = Some p ->
  truthy p && typeof_object p = true ->
  exists e,
    obj_get "properties" o = Some (JObj e)
    /\ List.map fst e = List.map fst (own_entries p)
    /\ Forall2 (fun kv kv' => normalize (snd kv) = Ok (snd kv'))
         (own_entries p) e.
Proof.
  intros Hclean Hprops Hobj.
  destruct (cleanJsonSchema_step schema o
              {| step_key := "properties"; step_run := clean_properties |}
              Hclean)
    as (before & after & Hstep & Hbefore & _ & Hres & _).
  { unfold steps. simpl. auto. }
  simpl in Hstep, Hbefore, Hres.
  change (includes "properties" allowedTopLevelProps) with true in Hbefore.
  rewrite Hprops in Hbefore.
  unfold clean_properties in Hstep. rewrite Hbefore, Hobj in Hstep.
  apply bind_Ok in Hstep as (e & He & Hstep). inversion Hstep; subst after.
  rewrite obj_get_set, String.eqb_refl in Hres. simpl in Hres.
  exists e. split; [done|]. by apply mapM_clean_entry.
Qed.

End NormalizerResults.

Lemma cleanJsonSchema_allowed_keys_witness :
  includes "type" allowedTopLevelProps = true.
Proof.
  apply (cleanJsonSchema_allowed_keys (fun _ => true)
           (JObj [("$schema", JStr "draft-07"); ("nullable", JBool true);
                  ("type", JStr "number"); ("x-extra", JNum 1)])
           [("type", JStr "number")] "type" (JStr "number")).
  - vm_compute. reflexivity.
  - by left.
Defined.

Lemma cleanJsonSchema_no_empty_value_witness :
  JStr "number" <> JNull /\ JStr "number" <> JStr ""
  /\ ("type" <> "properties" -> "type" <> "default" ->
      JStr "number" <> JObj [] /\ ("type" <> "enum" -> JStr "number" <> JArr [])).
Proof.
  apply (cleanJsonSchema_no_empty_value (fun _ => true)
           (JObj [("type", JStr "number"); ("description", JStr "");
                  ("enum", JArr []); ("anyOf", JArr [])])
           [("type", JStr "number"); ("enum", JArr [])]).
  - vm_compute. reflexivity.
  - reflexivity.
Defined.

Lemma cleanJsonSchema_null_throws_witness :
  cleanJsonSchema (fun _ => true)
    (JObj [("type", JStr "string"); ("const", JNull)])
  = TypeError.
Proof.
  apply (cleanJsonSchema_null_throws (fun _ => true) _ "const");
    [reflexivity|reflexivity|reflexivity|discriminate|discriminate].
Defined.

Lemma cleanJsonSchema_items_need_array_witness :
  obj_get "type"
    [("type", JStr "array"); ("items", JObj [("type", JStr "string")])]
  = Some (JStr "array").
Proof.
  apply (cleanJsonSchema_items_need_array (fun _ => true)
           (JObj [("type", JStr "array"); ("items", JObj [("type", JStr "text")])])
           _ (JObj [("type", JStr "string")]));
    [vm_compute; reflexivity|reflexivity|reflexivity].
Defined.

Lemma cleanJsonSchema_required_witness :
  exists names,
    JArr [JStr "a"; JStr "b"] = JArr names /\ names <> []
    /\ forall x, In x names -> exists s, x = JStr s /\ s <> "".
Proof.
  apply (cleanJsonSchema_required (fun _ => true)
           (JObj [("type", JStr "object");
                  ("required", JArr [JStr "a"; JStr ""; JNum 3; JStr "b"])])
           [("type", JStr "object"); ("required", JArr [JStr "a"; JStr "b"])]);
    [vm_compute; reflexivity|reflexivity|reflexivity].
Defined.

(** An oracle that accepts the repaired pattern only. *)
Definition only_escaped_digit (p : string) : bool :=
  String.eqb p (String backslash (String backslash "d")).

Lemma cleanJsonSchema_pattern_valid_witness :
  only_escaped_digit (String backslash (String backslash "d")) = true.
Proof.
  apply (cleanJsonSchema_pattern_valid only_escaped_digit
           (JObj [("type", JStr "string");
                  ("pattern", JStr (String backslash "d"))])
           [("type", JStr "string");
            ("pattern", JStr (String backslash (String backslash "d")))]);
    [vm_compute; reflexivity|reflexivity].
Defined.

Lemma cleanJsonSchema_drops_bad_pattern_witness :
  obj_get "pattern" [("type", JStr "string")] = None.
Proof.
  apply (cleanJsonSchema_drops_bad_pattern (fun _ => false)
           (JObj [("type", JStr "string"); ("pattern", JStr "[a-z")])
           _ "[a-z");
    [vm_compute; reflexivity|reflexivity|reflexivity|reflexivity].
Defined.

Lemma cleanJsonSchema_properties_witness :
  exists e,
    obj_get "properties"
      [("type", JStr "object");
       ("properties", JObj [("a", JObj [("type", JStr "object")]);
                            ("b", JObj [("type", JStr "string")])])]
    = Some (JObj e)
    /\ List.map fst e
       = List.map fst
           (own_entries (JObj [("a", JObj []); ("b", JObj [("type", JStr "text")])]))
    /\ Forall2 (fun kv kv' => cleanJsonSchema (fun _ => true) (snd kv) = Ok (snd kv'))
         (own_entries (JObj [("a", JObj []); ("b", JObj [("type", JStr "text")])]))
         e.
Proof.
  apply (cleanJsonSchema_properties (fun _ => true)
           (JObj [("type", JStr "object");
                  ("properties",
                   JObj [("a", JObj []); ("b", JObj [("type", JStr "text")])])]));
    [vm_compute; reflexivity|reflexivity|reflexivity].
Defined.

(** * Further properties of the provider adapter *)

(** X10. A converted tool has an object as its schema, with a [type]
    that is not falsy and without [$schema]. *)
Theorem convertTool_schema_has_type rv tool t :
  convertTool rv tool = Ok t ->
  exists o ty,
    input_schema t = JObj o
    /\ obj_get "type" o = Some ty /\ truthy ty = true
    /\ obj_get "$schema" o = None.
Proof.
  unfold convertTool. intros H.
  apply bind_Ok in H as (c1 & Hc1 & H).
  apply bind_Ok in H as (c2 & Hc2 & H).
  apply bind_Ok in H as (c3 & Hc3 & H).
  inversion H; subst t. simpl. clear H.
  assert (Hc12 : exists o, c1 = JObj o /\ c2 = JObj o
                           /\ obj_get "$schema" o = None).
  { destruct c1 as [| | | | |o];
      try (inversion Hc2; subst c2; discriminate Hc3).
    assert (Hnone : obj_get "$schema" o = None).
    { destruct (obj_get "$schema" o) as [v|] eqn:Hget; [|done].
      pose proof (cleanJsonSchema_keys_all rv _ o Hc1) as Hkeys.
      by apply (keys_all_get _ _ _ _ Hkeys) in Hget. }
    rewrite Hnone in Hc2. inversion Hc2. eauto. }
  destruct Hc12 as (o & -> & -> & Hnone).
  destruct (obj_get "type" o) as [ty|] eqn:Hty.
  - destruct (truthy ty) eqn:Htruthy; inversion Hc3; subst c3.
    + exists o, ty. auto.
    + exists (obj_set "type" (JStr "object") o), (JStr "object").
      rewrite !obj_get_set. simpl. auto.
  - inversion Hc3; subst c3.
    exists (obj_set "type" (JStr "object") o), (JStr "object").
    rewrite !obj_get_set. simpl. auto.
Qed.

Lemma convertTool_schema_has_type_witness :
  exists o ty,
    JObj [("properties", JObj []); ("type", JStr "object")] = JObj o
    /\ obj_get "type" o = Some ty /\ truthy ty = true
    /\ obj_get "$schema" o = None.
Proof.
  apply (convertTool_schema_has_type (fun _ => true)
           {| tool_name := "lookup"; tool_description := None;
              tool_input_schema :=
                Some (JObj [("$schema", JStr "http://json-schema.org/draft-07/schema#");
                            ("type", JObj []); ("properties", JArr [])]) |}
           {| name := "lookup"; description := "lookup";
              input_schema :=
                JObj [("properties", JObj []); ("type", JStr "object")] |}).
  vm_compute. reflexivity.
Defined.

(** The schema of a tool is missing, falsy, or an empty object or array. *)
Definition without_schema (tool : Tool) : bool :=
  match tool_input_schema tool with
  | Some s =>
      negb (truthy s)
      || (typeof_object s && match own_entries s with [] => true | _ => false end)
  | None => true
  end.

(** X11. A tool without a schema is converted with the schema of an
    object without properties, and a tool without a description with its
    name as description. *)
Theorem convertTool_without_schema rv tool :
  without_schema tool = true ->
  convertTool rv tool
  = Ok {| name := tool_name tool;
          description :=
            match tool_description tool with
            | Some d => if String.eqb d "" then tool_name tool else d
            | None => tool_name tool
            end;
          input_schema := JObj [("type", JStr "object"); ("properties", JObj [])] |}.
Proof.
  unfold without_schema, convertTool. intros H.
  destruct (tool_input_schema tool) as [s|]; [rewrite H|]; reflexivity.
Qed.

Lemma convertTool_without_schema_witness :
  convertTool (fun _ => true)
    {| tool_name := "ping"; tool_description := Some "";
       tool_input_schema := Some (JObj []) |}
  = Ok {| name := "ping"; description := "ping";
          input_schema := JObj [("type", JStr "object"); ("properties", JObj [])] |}.
Proof.
  apply (convertTool_without_schema (fun _ => true)
           {| tool_name := "ping"; tool_description := Some "";
              tool_input_schema := Some (JObj []) |}).
  reflexivity.
Defined.

Lemma mapM_convertTool_names rv tools : forall converted,
  mapM (convertTool rv) tools = Ok converted ->
  List.map name converted = List.map tool_name tools.
Proof.
  induction tools as [|tool tools IH]; intros converted H; simpl in H.
  - by inversion H.
  - apply bind_Ok in H as (t & Ht & H). apply bind_Ok in H as (ts & Hts & H).
    inversion H; subst converted. simpl.
    by rewrite (convertTool_name _ _ _ Ht), (IH ts).
Qed.

Lemma deduplicate_distinct_from l : forall acc,
  NoDup (List.map name (acc ++ l)) ->
  fold_left (fun uniqueTools tool =>
               if has_name (name tool) uniqueTools then uniqueTools
               else uniqueTools ++ [tool]) l acc
  = acc ++ l.
Proof.
  induction l as [|t l IH]; intros acc Hnd; simpl.
  - by rewrite app_nil_r.
  - assert (Hnew : has_name (name t) acc = false).
    { destruct (has_name (name t) acc) eqn:Hhas; [|done].
      apply existsb_exists in Hhas as [t' [Hin Heq]].
      apply String.eqb_eq in Heq.
      rewrite List.map_app in Hnd. simpl in Hnd.
      apply NoDup_app in Hnd as (_ & Hdisj & _).
      exfalso. apply (Hdisj (name t)).
      - apply list_elem_of_In. rewrite <- Heq. by apply in_map.
      - by left. }
    rewrite Hnew, IH; rewrite <- app_assoc; done.
Qed.

(** X12. When the names of the tools are pairwise distinct the
    conversion drops none: it gives the converted tools, in their order. *)
Theorem convertToolsToAnthropic_distinct rv tools converted :
  NoDup (List.map tool_name tools) ->
  mapM (convertTool rv) tools = Ok converted ->
  convertToolsToAnthropic rv tools = Ok converted.
Proof.
  intros Hnd Hmap. unfold convertToolsToAnthropic. rewrite Hmap. simpl.
  f_equal. unfold deduplicate.
  rewrite (deduplicate_distinct_from converted []); [done|].
  simpl. by rewrite (mapM_convertTool_names _ _ _ Hmap).
Qed.

Lemma convertToolsToAnthropic_distinct_witness :
  convertToolsToAnthropic (fun _ => true) (firstn 2 duplicated_tools)
  = Ok [ {| name := "search"; description := "first";
            input_schema := JObj [("type", JStr "object")] |};
         {| name := "fetch"; description := "fetch";
            input_schema := JObj [("type", JStr "object"); ("properties", JObj [])] |} ].
Proof.
  apply convertToolsToAnthropic_distinct.
  - apply NoDup_ListNoDup.
    repeat (apply List.NoDup_cons; [simpl; intuition discriminate|]).
    apply List.NoDup_nil.
  - vm_compute. reflexivity.
Defined.

Lemma deduplicate_sublist_from l : forall acc,
  exists kept,
    fold_left (fun uniqueTools tool =>
                 if has_name (name tool) uniqueTools then uniqueTools
                 else uniqueTools ++ [tool]) l acc
    = acc ++ kept
    /\ sublist kept l.
Proof.
  induction l as [|t l IH]; intros acc; simpl.
  - exists []. by rewrite app_nil_r.
  - destruct (has_name (name t) acc).
    + destruct (IH acc) as (kept & -> & Hsub).
      exists kept. split; [done|]. by apply sublist_cons.
    + destruct (IH (acc ++ [t])) as (kept & -> & Hsub).
      exists (t :: kept). rewrite <- app_assoc. split; [done|].
      by apply sublist_skip.
Qed.

(** X13. The tools of the conversion are converted tools of the request
    in the order of the request: a duplicate is dropped where it stands,
    nothing is added or moved. *)
Theorem convertToolsToAnthropic_keeps_order rv tools converted :
  mapM (convertTool rv) tools = Ok converted ->
  exists out,
    convertToolsToAnthropic rv tools = Ok out
    /\ sublist out converted
    /\ length out <= length tools.
Proof.
  intros Hmap. unfold convertToolsToAnthropic. rewrite Hmap. simpl.
  destruct (deduplicate_sublist_from converted []) as (kept & Hfold & Hsub).
  exists (deduplicate converted). unfold deduplicate. rewrite Hfold. simpl.
  split; [done|]. split; [done|].
  apply sublist_length in Hsub.
  rewrite <- (length_map tool_name tools),
    <- (mapM_convertTool_names _ _ _ Hmap), length_map.
  done.
Qed.

Lemma convertToolsToAnthropic_keeps_order_witness :
  exists out,
    convertToolsToAnthropic (fun _ => true) duplicated_tools = Ok out
    /\ sublist out
         [ {| name := "search"; description := "first";
              input_schema := JObj [("type", JStr "object")] |};
           {| name := "fetch"; description := "fetch";
              input_schema := JObj [("type", JStr "object"); ("properties", JObj [])] |};
           {| name := "search"; description := "second";
              input_schema := JObj [("type", JStr "string")] |} ]
    /\ length out <= length duplicated_tools.
Proof.
  apply convertToolsToAnthropic_keeps_order.
  vm_compute. reflexivity.
Defined.

(** X14. The tools kept for the conversion are never more than the cap:
    as many as there are up to 100, all of them when they are at most
    100. *)
Theorem toolsToConvert_length baseTools tools :
  length (toolsToConvert baseTools tools)
  = Nat.min MAX_TOOLS (length (default [] baseTools ++ default [] tools))
  /\ (length (default [] baseTools ++ default [] tools) <= MAX_TOOLS ->
      toolsToConvert baseTools tools = default [] baseTools ++ default [] tools)
  /\ (MAX_TOOLS <= length (default [] baseTools) ->
      toolsToConvert baseTools tools = firstn MAX_TOOLS (default [] baseTools)).
Proof.
  unfold toolsToConvert.
  set (b := default [] baseTools). set (t := default [] tools).
  destruct (Nat.ltb_spec MAX_TOOLS (length (b ++ t))) as [Hover|Hle].
  - rewrite length_app in Hover.
    destruct (Z.ltb_spec 0 (Z.of_nat MAX_TOOLS - Z.of_nat (length b)))
      as [Hpos|Hnpos].
    + split; [|split].
      * rewrite !length_app, length_firstn. lia.
      * rewrite length_app. lia.
      * lia.
    + split; [|split].
      * rewrite length_firstn, length_app. lia.
      * rewrite length_app. lia.
      * done.
  - split; [|split].
    + lia.
    + done.
    + intros Hb. rewrite length_app in Hle.
      assert (Ht : t = []) by (destruct t; [done|simpl in Hle; lia]).
      rewrite Ht, app_nil_r. symmetry. apply firstn_all2. lia.
Qed.

Lemma mapM_app {A B} (f : A -> result B) l1 l2 r1 r2 :
  mapM f l1 = Ok r1 -> mapM f l2 = Ok r2 -> mapM f (l1 ++ l2) = Ok (r1 ++ r2).
Proof.
  revert r1. induction l1 as [|x l1 IH]; intros r1 H1 H2; simpl in *.
  - by inversion H1.
  - apply bind_Ok in H1 as (y & Hy & H1). apply bind_Ok in H1 as (ys & Hys & H1).
    inversion H1; subst r1. rewrite Hy. simpl.
    by rewrite (IH ys Hys H2).
Qed.

Lemma mapM_length {A B} (f : A -> result B) l : forall r,
  mapM f l = Ok r -> length r = length l.
Proof.
  induction l as [|x l IH]; intros r H; simpl in H.
  - by inversion H.
  - apply bind_Ok in H as (y & Hy & H). apply bind_Ok in H as (ys & Hys & H).
    inversion H; subst r. simpl. by rewrite (IH ys).
Qed.

(** X26. When the combined tools exceed the cap of 100, the base tools
    number at most 100, the tools kept have pairwise distinct names and
    each of them converts, the provider is sent 100 tools: the conversions
    of all the base tools, in their order, followed by those of the first
    (100 - number of base tools) other tools, in their order. *)
Theorem distinct_tools_sent rv baseTools tools sentBase sentOthers :
  MAX_TOOLS < length (baseTools ++ tools) ->
  length baseTools <= MAX_TOOLS ->
  NoDup (List.map tool_name
           (baseTools ++ firstn (MAX_TOOLS - length baseTools) tools)) ->
  mapM (convertTool rv) baseTools = Ok sentBase ->
  mapM (convertTool rv) (firstn (MAX_TOOLS - length baseTools) tools)
  = Ok sentOthers ->
  convertToolsToAnthropic rv (toolsToConvert (Some baseTools) (Some tools))
  = Ok (sentBase ++ sentOthers)
  /\ length sentBase = length baseTools
  /\ length sentOthers = MAX_TOOLS - length baseTools.
Proof.
  intros Hover Hbase Hnd HmapB HmapO.
  destruct (toolsToConvert_over_cap baseTools tools Hover Hbase)
    as (Heq & Hfirst & _).
  pose proof (mapM_app _ _ _ _ _ HmapB HmapO) as Hmap.
  split; [|split].
  - rewrite Heq. unfold convertToolsToAnthropic. rewrite Hmap. simpl.
    f_equal. unfold deduplicate.
    rewrite (deduplicate_distinct_from (sentBase ++ sentOthers) []); [done|].
    simpl. by rewrite (mapM_convertTool_names _ _ _ Hmap).
  - by apply mapM_length in HmapB.
  - apply mapM_length in HmapO. by rewrite HmapO.
Qed.

(** The strings of [l] are pairwise distinct. *)
Fixpoint all_distinct (l : list string) : bool :=
  match l with
  | [] => true
  | x :: rest => negb (includes x rest) && all_distinct rest
  end.

Lemma all_distinct_NoDup l : all_distinct l = true -> NoDup l.
Proof.
  intros H. apply NoDup_ListNoDup.
  induction l as [|x l IH]; simpl in H; constructor.
  - apply andb_true_iff in H as [Hx _]. intros Hin.
    assert (Hinc : includes x l = true).
    { apply existsb_exists. exists x. split; [done|]. apply String.eqb_refl. }
    by rewrite Hinc in Hx.
  - apply IH. by apply andb_true_iff in H as [_ H].
Qed.

Lemma distinct_tools_sent_witness :
  let baseTools := [numbered_tool "base_" 0] in
  let tools := List.map (numbered_tool "tool_") (seq 0 120) in
  exists sentBase sentOthers,
    convertToolsToAnthropic (fun _ => true)
      (toolsToConvert (Some baseTools) (Some tools))
    = Ok (sentBase ++ sentOthers)
    /\ length sentBase = length baseTools
    /\ length sentOthers = MAX_TOOLS - length baseTools.
Proof.
  cbv zeta. eexists _, _.
  apply (distinct_tools_sent (fun _ => true) [numbered_tool "base_" 0]
           (List.map (numbered_tool "tool_") (seq 0 120))).
  - vm_compute. lia.
  - vm_compute. lia.
  - apply all_distinct_NoDup. vm_compute. reflexivity.
  - vm_compute. reflexivity.
  - vm_compute. reflexivity.
Defined.

(** * Further properties of the dispatcher *)

Lemma invoke_result impl inv scope :
  let r := fst (invoke impl inv scope) in
  if success r then result_error r = None else result_value r = None.
Proof.
  destruct inv; simpl.
  - by destruct (evalCode impl code scope) as [[r|e] scope'].
  - by destruct (editWorkflowServerTool impl args contextUserId).
  - by destruct (getWorkflowConsoleServerTool impl args).
  - by destruct (getBlocksMetadataServerTool impl args).
  - by destruct (getBlocksAndToolsServerTool impl args).
  - destruct (executeTool impl toolName toolInput executionContext)
      as [response|e]; simpl; [|done].
    by destruct (response_success response).
Qed.

(** X16. The result of a tool call has a value or an error, not both: a
    success carries no error and a failure no value, whatever the tool
    returned or threw. *)
Theorem executeToolCall_result impl toolName loc request heap :
  let r := fst (executeToolCall impl toolName loc request heap) in
  if success r then result_error r = None else result_value r = None.
Proof.
  cbv zeta. unfold executeToolCall.
  destruct (heap !! loc) as [toolInput|]; [|done].
  destruct (prepareToolCall toolName loc toolInput request heap) as [inv h].
  match goal with
  | |- context [invoke impl inv ?s] =>
      pose proof (invoke_result impl inv s) as H;
      destruct (invoke impl inv s) as [r scope]
  end.
  exact H.
Qed.

(** * Further properties of the conversation loop *)

Definition flow_state (flow : Flow) : LoopState :=
  match flow with Running st | Raised st _ => st end.

(** [st'] continues the stream of [st] with events, without closing it. *)
Definition enqueues (st st' : LoopState) : Prop :=
  exists events, trace st' = trace st ++ List.map Enqueue events.

Lemma enqueues_refl st : enqueues st st.
Proof. exists []. by rewrite app_nil_r. Qed.

Lemma enqueues_trans st1 st2 st3 :
  enqueues st1 st2 -> enqueues st2 st3 -> enqueues st1 st3.
Proof.
  intros [a Ha] [b Hb]. exists (a ++ b).
  by rewrite Hb, Ha, List.map_app, app_assoc.
Qed.

Lemma enqueues_enqueue events st : enqueues st (enqueue events st).
Proof. by exists events. Qed.

Lemma callbacks_enqueues cbs : forall th st,
  enqueues st (snd (fold_left on_callback cbs (th, st))).
Proof.
  induction cbs as [|cb cbs IH]; intros th st; cbn [fold_left].
  - apply enqueues_refl.
  - destruct (on_callback (th, st) cb) as [th1 st1] eqn:Hcb.
    eapply enqueues_trans; [|apply IH].
    destruct th as [inThinking startTime], cb as [thinking text now|e];
      simpl in Hcb.
    + destruct thinking, inThinking; inversion Hcb; apply enqueues_enqueue.
    + inversion Hcb. eexists [_]. simpl. reflexivity.
Qed.

Lemma executeToolUses_enqueues impl uses : forall toolResults st,
  enqueues st (snd (executeToolUses impl uses toolResults st)).
Proof.
  induction uses as [|[[id toolName] input] uses IH]; intros toolResults st;
    cbn [executeToolUses].
  - apply enqueues_refl.
  - cbv zeta. tool_call_cases IH; cbn [snd] in *.
    + eapply enqueues_trans; [|exact IHrest].
      eexists [_; _]. simpl. by rewrite <- app_assoc.
    + eapply enqueues_trans; [|exact IHrest].
      eexists [_; _]. simpl. by rewrite <- app_assoc.
    + by eexists [_].
Qed.

Section Stream.

Variable impl : ToolImplementations.
Variable client : nat -> list WireMessage -> ProviderTurn.
Variable request : LocalAgentRequest.

Lemma iteration_enqueues st :
  enqueues st (flow_state (iteration impl client st)).
Proof.
  unfold iteration.
  set (st0 := count_iteration st).
  set (turn := client (iterationCount st0) _).
  pose proof (callbacks_enqueues (callbacks turn) (false, None) st0) as He.
  destruct (fold_left on_callback (callbacks turn) (false, None, st0))
    as [th st1].
  simpl in He.
  destruct (finalMessage turn) as [final|e]; [|done].
  destruct (allocate (heap st1) (content final)) as [blocks h].
  destruct (toolUseBlocks blocks) as [|u uses].
  - simpl. eapply enqueues_trans; [exact He|]. eexists [_]. reflexivity.
  - pose proof (executeToolUses_enqueues impl (u :: uses) []
                  (push (Appended assistant (Blocks blocks)) (set_heap h st1)))
      as He'.
    destruct (executeToolUses impl (u :: uses) [] _) as [[toolResults|e] st2];
      simpl in *; eapply enqueues_trans; [exact He|exact He'|exact He|exact He'].
Qed.

Lemma toolLoop_enqueues fuel : forall st flow,
  toolLoop impl client fuel st = Ok flow ->
  iterationCount st <= maxIterations ->
  enqueues st (flow_state flow)
  /\ iterationCount (flow_state flow) <= maxIterations.
Proof.
  induction fuel as [|fuel IH]; intros st flow Hloop Hle; simpl in Hloop;
    destruct (continueLoop st && (iterationCount st <? maxIterations)%nat)
      eqn:Hcond;
    try discriminate;
    try (inversion Hloop; subst flow; split; [apply enqueues_refl|done]).
  apply andb_true_iff in Hcond as [_ Hlt%Nat.ltb_lt].
  pose proof (iteration_enqueues st) as He.
  pose proof (iteration_count impl client st) as Hc.
  destruct (iteration impl client st) as [st'|st' e] eqn:Hit;
    simpl in He, Hc.
  - destruct (IH st' flow Hloop) as [He' Hc']; [lia|].
    split; [eapply enqueues_trans; eauto|done].
  - inversion Hloop; subst flow. simpl. split; [done|lia].
Qed.

(** X17. Whatever the provider does, the stream is the start event, then
    events, then its close: it is closed once, at its end, after at most
    [maxIterations] rounds. *)
Theorem stream_is_closed_once fuel model systemPrompt :
  maxIterations <= fuel ->
  exists st events,
    start impl client fuel request model systemPrompt = Ok st
    /\ trace st
       = Enqueue (EvStart model "anthropic" systemPrompt)
         :: List.map Enqueue events ++ [Close]
    /\ iterationCount st <= maxIterations.
Proof.
  intros Hfuel. unfold start.
  match goal with
  | |- context [toolLoop _ _ _ ?s] => set (st0 := s)
  end.
  destruct (toolLoop_returns impl client maxIterations fuel st0)
    as (flow & Hloop & _); [simpl; lia|done|simpl; lia|].
  destruct (toolLoop_enqueues fuel st0 flow Hloop) as [[events He] Hc];
    [simpl; lia|].
  rewrite Hloop. cbn [bind].
  destruct flow as [st|st e]; simpl in He, Hc.
  - destruct (maxIterations <=? iterationCount st)%nat.
    + eexists _, (events ++ [_; _]). split; [reflexivity|].
      simpl. rewrite He, List.map_app. simpl.
      by rewrite <- !app_assoc.
    + eexists _, events. split; [reflexivity|]. simpl. by rewrite He.
  - eexists _, (events ++ [_; _]). split; [reflexivity|].
    simpl. rewrite He, List.map_app. simpl. by rewrite <- !app_assoc.
Qed.

(** A round whose turn is rejected leaves the loop for the [catch]. *)
Lemma iteration_rejected st e :
  (forall msgs, finalMessage (client (S (iterationCount st)) msgs) = Threw e) ->
  exists st',
    iteration impl client st = Raised st' e
    /\ iterationCount st' = S (iterationCount st)
    /\ extends st st'.
Proof.
  intros Hturn. unfold iteration.
  set (st0 := count_iteration st).
  set (msgs := List.map (resolve (heap st0)) (conversationMessages st0)).
  set (turn := client (iterationCount st0) msgs).
  specialize (Hturn msgs).
  change (S (iterationCount st)) with (iterationCount st0) in *.
  fold turn in Hturn.
  pose proof (callbacks_spec (callbacks turn) (false, None) st0) as (Hc & He & _).
  destruct (fold_left on_callback (callbacks turn) (false, None, st0))
    as [th st1].
  simpl in Hc, He. rewrite Hturn.
  exists st1. split; [done|]. split; [done|].
  destruct He as [a Ha]. exists a. exact Ha.
Qed.

Lemma toolLoop_rejected n e k : forall fuel st,
  serializable_results impl ->
  (forall j msgs, 0 < j < n -> requests_tools (client j msgs) = true) ->
  (forall msgs, finalMessage (client n msgs) = Threw e) ->
  n <= maxIterations ->
  continueLoop st = true ->
  iterationCount st + S k = n ->
  S k <= fuel ->
  exists st',
    toolLoop impl client fuel st = Ok (Raised st' e)
    /\ iterationCount st' = n
    /\ extends st st'.
Proof.
  induction k as [|k IH];
    intros fuel st Hser Hturns Hlast Hn Hcont Hcount Hfuel;
    (destruct fuel as [|fuel]; [lia|]); simpl; rewrite Hcont;
    (destruct (Nat.ltb_spec (iterationCount st) maxIterations); [|lia]); simpl.
  - assert (Hnext : S (iterationCount st) = n) by lia.
    destruct (iteration_rejected st e) as (st1 & Hit & Hc1 & He1).
    { intros msgs. rewrite Hnext. apply Hlast. }
    rewrite Hit. exists st1. split; [done|]. split; [lia|done].
  - destruct (iteration_requests_tools impl client st)
      as (st1 & Hit & Hc1 & Hl1 & He1); [done| |].
    { intros msgs. apply Hturns. lia. }
    rewrite Hit.
    destruct (IH fuel st1) as (st' & Hloop & Hc' & He'); try done; try lia.
    { congruence. }
    exists st'. split; [done|]. split; [done|]. eapply extends_trans; eauto.
Qed.

(** X18. When the turn of round [n] is rejected, after rounds that
    requested tools with results that can be serialized, the loop stops at
    that round and the stream ends with an error event carrying the
    message of the error (or "Unknown error"), then a [done] event, then
    its close. *)
Theorem rejected_turn_ends_stream n e fuel model systemPrompt :
  serializable_results impl ->
  (forall j msgs, 0 < j < n -> requests_tools (client j msgs) = true) ->
  (forall msgs, finalMessage (client n msgs) = Threw e) ->
  0 < n <= maxIterations ->
  maxIterations <= fuel ->
  exists st actions,
    start impl client fuel request model systemPrompt = Ok st
    /\ iterationCount st = n
    /\ trace st
       = actions
         ++ [Enqueue (EvError (default "Unknown error" e) sorry_message);
             Enqueue (EvDone None); Close].
Proof.
  intros Hser Hturns Hlast [Hpos Hn] Hfuel. unfold start.
  match goal with
  | |- context [toolLoop _ _ _ ?s] => set (st0 := s)
  end.
  destruct (toolLoop_rejected n e (pred n) fuel st0)
    as (st' & Hloop & Hcount & [actions Hext]); try done; try (simpl; lia).
  rewrite Hloop. cbn [bind].
  eexists _, (trace st0 ++ actions). split; [reflexivity|].
  split; [done|]. cbn [close enqueue trace List.map].
  rewrite Hext. by rewrite <- !app_assoc.
Qed.

Lemma toolLoop_answered n k : forall fuel st,
  serializable_results impl ->
  (forall j msgs, 0 < j < n -> requests_tools (client j msgs) = true) ->
  (forall msgs, final_answer (client n msgs) = true) ->
  n <= maxIterations ->
  continueLoop st = true ->
  iterationCount st + S k = n ->
  S k <= fuel ->
  exists st' msgs final actions,
    toolLoop impl client fuel st = Ok (Running st')
    /\ iterationCount st' = n
    /\ finalMessage (client n msgs) = Returned final
    /\ trace st'
       = trace st ++ actions
         ++ [Enqueue (EvDone (Some (stop_reason final, input_tokens final,
                                    output_tokens final)))].
Proof.
  induction k as [|k IH];
    intros fuel st Hser Hturns Hlast Hn Hcont Hcount Hfuel;
    (destruct fuel as [|fuel]; [lia|]); simpl; rewrite Hcont;
    (destruct (Nat.ltb_spec (iterationCount st) maxIterations); [|lia]); simpl.
  - assert (Hnext : S (iterationCount st) = n) by lia.
    destruct (iteration_final_answer impl client st)
      as (st1 & msgs & final & Hit & Hc1 & Hl1 & Hfm & actions & Htr).
    { intros msgs. rewrite Hnext. apply Hlast. }
    rewrite Hit, Hnext in *.
    exists st1, msgs, final, actions. split; [|done].
    destruct fuel; simpl; by rewrite Hl1.
  - destruct (iteration_requests_tools impl client st)
      as (st1 & Hit & Hc1 & Hl1 & [a Ha]); [done| |].
    { intros msgs. apply Hturns. lia. }
    rewrite Hit.
    destruct (IH fuel st1) as (st' & msgs & final & b & Hloop & Hc' & Hfm & Htr);
      try done; try lia.
    { congruence. }
    exists st', msgs, final, (a ++ b). split; [done|]. split; [done|].
    split; [done|]. by rewrite Htr, Ha, <- !app_assoc.
Qed.

(** X19. When round [n], before the cap, is a final answer after rounds
    that requested tools with results that can be serialized, the loop
    stops at that round and the stream ends with the [done] event of the
    answer and its close, without the error of the cap. *)
Theorem answer_before_cap_ends_stream n fuel model systemPrompt :
  serializable_results impl ->
  (forall j msgs, 0 < j < n -> requests_tools (client j msgs) = true) ->
  (forall msgs, final_answer (client n msgs) = true) ->
  0 < n < maxIterations ->
  maxIterations <= fuel ->
  exists st msgs final actions,
    start impl client fuel request model systemPrompt = Ok st
    /\ iterationCount st = n
    /\ finalMessage (client n msgs) = Returned final
    /\ trace st
       = actions
         ++ [Enqueue (EvDone (Some (stop_reason final, input_tokens final,
                                    output_tokens final)));
             Close].
Proof.
  intros Hser Hturns Hlast [Hpos Hn] Hfuel. unfold start.
  match goal with
  | |- context [toolLoop _ _ _ ?s] => set (st0 := s)
  end.
  destruct (toolLoop_answered n (pred n) fuel st0)
    as (st' & msgs & final & actions & Hloop & Hcount & Hfm & Htr);
    try done; try (simpl; lia).
  rewrite Hloop. cbn [bind]. rewrite Hcount.
  destruct (Nat.leb_spec maxIterations n); [lia|].
  eexists _, msgs, final, (trace st0 ++ actions). split; [reflexivity|].
  split; [done|]. split; [done|]. cbn [close trace].
  rewrite Htr. by rewrite <- !app_assoc.
Qed.

End Stream.

(** A provider whose first turn fails. *)
Definition failing_client (n : nat) (msgs : list WireMessage) : ProviderTurn :=
  {| callbacks := [OnError (Some "overloaded")];
     finalMessage := Threw (Some "overloaded") |}.

Lemma stream_is_closed_once_witness :
  exists st events,
    start idle_tools patient_client maxIterations (sample_request []) "model" "prompt"
    = Ok st
    /\ trace st
       = Enqueue (EvStart "model" "anthropic" "prompt")
         :: List.map Enqueue events ++ [Close]
    /\ iterationCount st <= maxIterations.
Proof.
  apply stream_is_closed_once. lia.
Defined.

Lemma rejected_turn_ends_stream_witness :
  exists st actions,
    start idle_tools failing_client maxIterations (sample_request []) "model" "prompt"
    = Ok st
    /\ iterationCount st = 1
    /\ trace st
       = actions
         ++ [Enqueue (EvError (default "Unknown error" (Some "overloaded"))
                        sorry_message);
             Enqueue (EvDone None); Close].
Proof.
  apply rejected_turn_ends_stream.
  - intros inv scope. destruct inv; reflexivity.
  - intros j msgs Hj. lia.
  - intros msgs. reflexivity.
  - unfold maxIterations. lia.
  - lia.
Defined.

Lemma answer_before_cap_ends_stream_witness :
  exists st msgs final actions,
    start idle_tools curious_client maxIterations (sample_request []) "model" "prompt"
    = Ok st
    /\ iterationCount st = 2
    /\ finalMessage (curious_client 2 msgs) = Returned final
    /\ trace st
       = actions
         ++ [Enqueue (EvDone (Some (stop_reason final, input_tokens final,
                                    output_tokens final)));
             Close].
Proof.
  apply answer_before_cap_ends_stream.
  - intros inv scope. destruct inv; reflexivity.
  - intros j msgs Hj. assert (j = 1) as -> by lia. reflexivity.
  - intros msgs. reflexivity.
  - unfold maxIterations. lia.
  - lia.
Defined.











Section Round.

Variable impl : ToolImplementations.
Variable client : nat -> list WireMessage -> ProviderTurn.


End Round.


(** The reasoning markers of a list of actions, read from a state in
    which a reasoning block is open or not: a start opens one that is not
    open, an end closes one that is open, reasoning text comes inside and
    answer text outside.  The result is whether a block is open at the
    end, or nothing when an action is out of place. *)
Fixpoint reasoning_markers (open : bool) (actions : list StreamAction)
  : option bool :=
  match actions with
  | [] => Some open
  | Enqueue EvReasoningStart :: rest =>
      if open then None else reasoning_markers true rest
  | Enqueue (EvReasoningEnd _) :: rest =>
      if open then reasoning_markers false rest else None
  | Enqueue (EvReasoning _) :: rest =>
      if open then reasoning_markers true rest else None
  | Enqueue (EvContent _) :: rest =>
      if open then None else reasoning_markers false rest
  | _ :: rest => reasoning_markers open rest
  end.

Lemma reasoning_markers_app open actions more :
  reasoning_markers open (actions ++ more)
  = match reasoning_markers open actions with
    | Some open' => reasoning_markers open' more
    | None => None
    end.
Proof.
  revert open. induction actions as [|a actions IH]; intros open; [done|].
  destruct a as [[]|]; simpl; try apply IH; destruct open; try done; apply IH.
Qed.

Lemma callbacks_markers cbs : forall th st,
  exists actions,
    trace (snd (fold_left on_callback cbs (th, st))) = trace st ++ actions
    /\ reasoning_markers (fst th) actions
       = Some (fst (fst (fold_left on_callback cbs (th, st)))).
Proof.
  induction cbs as [|cb cbs IH]; intros th st; cbn [fold_left].
  - exists []. by rewrite app_nil_r.
  - destruct (on_callback (th, st) cb) as [th1 st1] eqn:Hcb.
    destruct (IH th1 st1) as (more & Htrace & Hmarkers).
    assert (Hone : exists actions,
               trace st1 = trace st ++ actions
               /\ reasoning_markers (fst th) actions = Some (fst th1)).
    { destruct th as [inThinking startTime], cb as [thinking text now|e];
        simpl in Hcb.
      - destruct thinking, inThinking; inversion Hcb; subst;
          eexists; (split; [reflexivity|reflexivity]).
      - inversion Hcb; subst. eexists. split; [reflexivity|reflexivity]. }
    destruct Hone as (actions & Htrace1 & Hmarkers1).
    exists (actions ++ more). split.
    + by rewrite Htrace, Htrace1, app_assoc.
    + by rewrite reasoning_markers_app, Hmarkers1.
Qed.

(** X22. In the events of the callbacks of one round the reasoning
    markers are in place: reasoning text comes only between a start
    marker and the next end marker, answer text only outside, and no end
    marker comes without its start. *)
Theorem callbacks_reasoning_markers cbs st :
  exists actions open,
    trace (snd (fold_left on_callback cbs ((false, None), st)))
    = trace st ++ actions
    /\ reasoning_markers false actions = Some open.
Proof.
  destruct (callbacks_markers cbs (false, None) st) as (actions & Htrace & Hm).
  eauto.
Qed.

(** * Further properties of the entry point *)

(** The model name of a request: [request.model], else the model of its
    provider, else the default. *)
Definition requested_model (requestModel : option string)
    (requestProvider : option ProviderConfig) : string :=
  string_or requestModel
    (string_or (match requestProvider with
                | Some p => provider_model p
                | None => None
                end) "claude-3-5-sonnet-20241022").

(** X23. A request for the provider "openai" or "gpt" never reaches a
    stream: it fails with the missing key, or with the message that
    OpenAI is not implemented. *)
Theorem openai_is_not_served env requestModel p :
  provider p = "openai" \/ provider p = "gpt" ->
  handleLocalAgentRequest env requestModel (Some p)
  = Threw (Some (if no_key (OPENAI_API_KEY env)
                 then "OPENAI_API_KEY not configured"
                 else "OpenAI support not yet implemented")).
Proof.
  unfold handleLocalAgentRequest, getAIClient.
  intros [-> | ->]; simpl; by destruct (no_key (OPENAI_API_KEY env)).
Qed.

Lemma openai_is_not_served_witness :
  handleLocalAgentRequest
    {| ANTHROPIC_API_KEY := Some "sk-ant"; OPENAI_API_KEY := Some "sk-oai" |}
    (Some "gpt-4")
    (Some {| provider := "openai"; provider_model := None;
             provider_apiKey := None |})
  = Threw (Some (if no_key (Some "sk-oai")
                 then "OPENAI_API_KEY not configured"
                 else "OpenAI support not yet implemented")).
Proof.
  apply (openai_is_not_served
           {| ANTHROPIC_API_KEY := Some "sk-ant"; OPENAI_API_KEY := Some "sk-oai" |}).
  by left.
Defined.

(** X24. The provider "claude" is served by the Anthropic client, but its
    model name is not mapped: the stream is called with the requested
    name as it is, also when it is a key of the Anthropic table. *)
Theorem claude_model_is_not_mapped env requestModel p :
  provider p = "claude" ->
  no_key (ANTHROPIC_API_KEY env) = false ->
  handleLocalAgentRequest env requestModel (Some p)
  = Returned (ModelId (requested_model requestModel (Some p))).
Proof.
  unfold handleLocalAgentRequest, getAIClient, requested_model.
  intros -> Hkey. simpl. by rewrite Hkey.
Qed.

Lemma claude_model_is_not_mapped_witness :
  handleLocalAgentRequest
    {| ANTHROPIC_API_KEY := Some "sk-ant"; OPENAI_API_KEY := None |}
    (Some "claude-4.5-sonnet")
    (Some {| provider := "claude"; provider_model := None;
             provider_apiKey := None |})
  = Returned
      (ModelId
         (requested_model (Some "claude-4.5-sonnet")
            (Some {| provider := "claude"; provider_model := None;
                     provider_apiKey := None |}))).
Proof.
  apply (claude_model_is_not_mapped
           {| ANTHROPIC_API_KEY := Some "sk-ant"; OPENAI_API_KEY := None |});
    reflexivity.
Defined.

Lemma table_or_range table modelName fallback id :
  table_or table modelName fallback = ModelId id ->
  In id (fallback :: List.map snd table).
Proof.
  unfold table_or.
  destruct (find _ table) as [kv|] eqn:Hfind.
  - intros H. inversion H; subst id. right.
    apply find_some in Hfind as [Hin _]. by apply in_map.
  - destruct (includes modelName object_prototype_members); [done|].
    intros H. inversion H. by left.
Qed.

(** X25. For the provider "anthropic" (also when none is given) the model
    identifier the stream is called with is one of the four identifiers
    of the table, whatever model name was requested. *)
Theorem anthropic_model_is_known env requestModel requestProvider id :
  string_or (match requestProvider with
             | Some p => Some (provider p)
             | None => None
             end) "anthropic" = "anthropic" ->
  handleLocalAgentRequest env requestModel requestProvider
  = Returned (ModelId id) ->
  In id [ "claude-sonnet-4-5-20250929"; "claude-opus-4-5-20251101";
          "claude-haiku-4-5-20251001"; "claude-3-5-sonnet-20241022" ].
Proof.
  unfold handleLocalAgentRequest. intros -> H.
  destruct (getAIClient env "anthropic") as [[]|e]; try done.
  inversion H as [Hmap]. unfold mapModelName in Hmap. simpl in Hmap.
  apply table_or_range in Hmap. simpl in Hmap. simpl.
  intuition.
Qed.

Lemma anthropic_model_is_known_witness :
  In "claude-opus-4-5-20251101"
    [ "claude-sonnet-4-5-20250929"; "claude-opus-4-5-20251101";
      "claude-haiku-4-5-20251001"; "claude-3-5-sonnet-20241022" ].
Proof.
  apply (anthropic_model_is_known
           {| ANTHROPIC_API_KEY := Some "sk-ant"; OPENAI_API_KEY := None |}
           (Some "claude-4.5-opus") None);
    reflexivity.
Defined.
